(** * Byte and bit streams of [pkg/stream.go]

    A shallow embedding of the three stream primitives of the package
    (the byte-cursor reader [streamReader], the byte/bit writer
    [streamWriter] and the bit-accumulator reader [BitStream]) together
    with the properties their specification states about them.

    Go's fixed-width integers are modelled as [Z] with the wrap-around
    written out ([GoInt]); a [byte] is a [Z] in [0, 256); a slice or a
    [bytes.Buffer] is the list of its bytes. *)

From Stdlib Require Import String ZArith List Lia Bool.
From coqutil Require Import Z.bitblast.
Import ListNotations.
Local Open Scope Z_scope.

(** ** Go machine integers *)

Module GoInt.

(** Conversion to an unsigned type of [w] bits keeps the low [w] bits. *)
Definition wrapU (w z : Z) : Z := z mod 2 ^ w.

(** Conversion to a signed type of [w] bits: two's complement. *)
Definition wrapS (w z : Z) : Z := (z + 2 ^ (w - 1)) mod 2 ^ w - 2 ^ (w - 1).

Definition uint8 := wrapU 8.
Definition uint16 := wrapU 16.
Definition uint32 := wrapU 32.
Definition uint64 := wrapU 64.
Definition int16 := wrapS 16.
Definition int32 := wrapS 32.
Definition int64 := wrapS 64.

(** [int] and [uint] are 64 bits wide (amd64, arm64). *)
Definition int := int64.
Definition uint := uint64.

Definition maxInt : Z := 2 ^ 63 - 1.
Definition minInt : Z := - 2 ^ 63.

Definition is_byte (z : Z) : Prop := 0 <= z < 256.
Definition is_int (z : Z) : Prop := minInt <= z <= maxInt.
Definition is_uint64 (z : Z) : Prop := 0 <= z < 2 ^ 64.

(** [x << s] at a type of [w] bits, for a shift count [s] that is already
    unsigned: the bits shifted out are lost, and a count of [w] or more
    gives 0. *)
Definition shlU (w x s : Z) : Z := wrapU w (Z.shiftl x s).
Definition shlS (w x s : Z) : Z :=
  if w <=? s then 0 else wrapS w (Z.shiftl x s).

(** [x >> s] on a signed value is arithmetic: a count of [w] or more
    gives 0 or -1. *)
Definition shrS (w x s : Z) : Z :=
  if w <=? s then (if x <? 0 then -1 else 0) else Z.shiftr x s.

End GoInt.
Import GoInt.

(** ** Panics

    A Go function either returns or panics.  The panics the stream code
    can raise are [log.Panic], an index out of range, and a negative
    shift count. *)

Inductive panic : Type :=
| LogPanic (msg : string)
| IndexOutOfRange
| NegativeShift.

Inductive outcome (A : Type) : Type :=
| Ok (a : A)
| Panic (p : panic).
Arguments Ok {A} a.
Arguments Panic {A} p.

(** Sequencing: a panic ends the run. *)
Definition and_then {A B : Type} (m : outcome A) (k : A -> outcome B)
  : outcome B :=
  match m with
  | Ok a => k a
  | Panic p => Panic p
  end.

(** Go's [error] results here are [nil] or [io.EOF]. *)
Inductive error : Type :=
| io_EOF.

(** The number a run of bytes spells, first byte least significant. *)
Fixpoint le_value (bs : list Z) : Z :=
  match bs with
  | [] => 0
  | b :: bs' => b + 256 * le_value bs'
  end.

(** ** streamReader *)

Module StreamReader.

Record streamReader : Type := mkReader {
  data : list Z;
  position : Z
}.

Definition with_position (v : streamReader) (p : Z) : streamReader :=
  {| data := data v; position := p |}.

Definition CreateStreamReader (source : list Z) : streamReader :=
  {| data := source; position := 0 |}.

Definition Position (v : streamReader) : Z := position v.

Definition SetPosition (newPosition : Z) (v : streamReader) : streamReader :=
  with_position v newPosition.

Definition Size (v : streamReader) : Z :=
  uint64 (Z.of_nat (length (data v))).

(** [s[lo:hi]] for [lo <= hi <= len(s)]. *)
Definition slice (s : list Z) (lo hi : Z) : list Z :=
  firstn (Z.to_nat (hi - lo)) (skipn (Z.to_nat lo) s).

(** [s[i]]; every use below is guarded by a bounds test that the
    source makes first. *)
Definition index (s : list Z) (i : Z) : Z := nth (Z.to_nat i) s 0.

Definition ReadByte (v : streamReader) : (Z * option error) * streamReader :=
  if Size v <=? position v then ((0, Some io_EOF), v)
  else ((index (data v) (position v), None),
        with_position v (uint64 (position v + 1))).

Definition ReadBytes (count : Z) (v : streamReader)
  : (list Z * option error) * streamReader :=
  if count <=? 0 then (([], None), v)
  else
    let size := Size v in
    let stop := uint64 (position v + uint64 count) in
    if (size <=? position v) || (size <? stop) then (([], Some io_EOF), v)
    else ((slice (data v) (position v) stop, None), with_position v stop).

Definition bytesPerint16 : Z := 2.
Definition bytesPerint32 : Z := 4.
Definition bytesPerint64 : Z := 8.

Definition ReadUInt16 (v : streamReader) : (Z * option error) * streamReader :=
  let '((b, err), v') := ReadBytes bytesPerint16 v in
  match err with
  | Some e => ((0, Some e), v')
  | None =>
      ((Z.lor (uint16 (index b 0)) (shlU 16 (uint16 (index b 1)) 8), err), v')
  end.

Definition ReadInt16 (v : streamReader) : (Z * option error) * streamReader :=
  let '((b, err), v') := ReadUInt16 v in ((int16 b, err), v').

Definition ReadUInt32 (v : streamReader) : (Z * option error) * streamReader :=
  let '((b, err), v') := ReadBytes bytesPerint32 v in
  match err with
  | Some e => ((0, Some e), v')
  | None =>
      ((Z.lor (Z.lor (Z.lor (uint32 (index b 0))
                            (shlU 32 (uint32 (index b 1)) 8))
                     (shlU 32 (uint32 (index b 2)) 16))
              (shlU 32 (uint32 (index b 3)) 24), err), v')
  end.

Definition ReadInt32 (v : streamReader) : (Z * option error) * streamReader :=
  let '((b, err), v') := ReadUInt32 v in ((int32 b, err), v').

Definition ReadUInt64 (v : streamReader) : (Z * option error) * streamReader :=
  let '((b, err), v') := ReadBytes bytesPerint64 v in
  match err with
  | Some e => ((0, Some e), v')
  | None =>
      ((Z.lor (Z.lor (Z.lor (Z.lor (Z.lor (Z.lor (Z.lor
          (uint64 (index b 0))
          (shlU 64 (uint64 (index b 1)) 8))
          (shlU 64 (uint64 (index b 2)) 16))
          (shlU 64 (uint64 (index b 3)) 24))
          (shlU 64 (uint64 (index b 4)) 32))
          (shlU 64 (uint64 (index b 5)) 40))
          (shlU 64 (uint64 (index b 6)) 48))
          (shlU 64 (uint64 (index b 7)) 56), err), v')
  end.

Definition ReadInt64 (v : streamReader) : (Z * option error) * streamReader :=
  let '((b, err), v') := ReadUInt64 v in ((int64 b, err), v').

Definition SkipBytes (count : Z) (v : streamReader) : streamReader :=
  with_position v (uint64 (position v + uint64 count)).

Definition EOF (v : streamReader) : bool :=
  uint64 (Z.of_nat (length (data v))) <=? position v.

(** What the type of a [*streamReader] guarantees: the cursor is a
    [uint64] and the length of a slice is an [int]. *)
Definition wf (v : streamReader) : Prop :=
  is_uint64 (position v) /\ Z.of_nat (length (data v)) <= maxInt.

(** The bytes between the cursor and the end of the buffer; none when
    the cursor is at or past the end. *)
Definition remaining (v : streamReader) : Z :=
  Z.max 0 (Size v - Position v).

(** The outcome shared by every read that runs out of data: the zero
    value, [io.EOF], and the reader as it was. *)
Definition fails_at_end {A : Type} (zero : A)
    (r : (A * option error) * streamReader) (v : streamReader) : Prop :=
  r = ((zero, Some io_EOF), v).



(** The bytes from the cursor to the end of the buffer. *)
Definition window (v : streamReader) : list Z :=
  skipn (Z.to_nat (position v)) (data v).

(** A reader over bytes. *)
Definition bytes_ok (v : streamReader) : Prop := Forall is_byte (data v).

End StreamReader.

(** ** streamWriter *)

Module StreamWriter.

(** [data] is the contents of the [bytes.Buffer]: nothing is ever read
    from it, so [Bytes()] is everything written so far. *)
Record streamWriter : Type := mkWriter {
  data : list Z;
  bitOffset : Z;
  bitCache : Z
}.

Definition bitsPerByte : Z := 8.

Definition CreateStreamWriter : streamWriter :=
  {| data := []; bitOffset := 0; bitCache := 0 |}.

Definition GetBytes (v : streamWriter) : list Z := data v.

(** [bytes.Buffer.WriteByte] *)
Definition WriteByte (c : Z) (v : streamWriter) : streamWriter :=
  {| data := data v ++ [c]; bitOffset := bitOffset v; bitCache := bitCache v |}.

Definition PushBytes (b : list Z) (v : streamWriter) : streamWriter :=
  fold_left (fun w i => WriteByte i w) b v.

(** [v.bitCache |= 1 << v.bitOffset]: the shift is made at type [byte],
    and panics when the count, a signed [int], is negative. *)
Definition set_bit (cache offset : Z) : outcome Z :=
  if offset <? 0 then Panic NegativeShift
  else Ok (Z.lor cache (shlU 8 1 offset)).

Definition PushBit (b : bool) (v : streamWriter) : outcome streamWriter :=
  match (if b then set_bit (bitCache v) (bitOffset v) else Ok (bitCache v)) with
  | Panic p => Panic p
  | Ok cache =>
      let offset := int (bitOffset v + 1) in
      if negb (offset =? bitsPerByte)
      then Ok {| data := data v; bitOffset := offset; bitCache := cache |}
      else
        let w := PushBytes [cache]
                   {| data := data v; bitOffset := offset; bitCache := cache |} in
        Ok {| data := data w; bitOffset := 0; bitCache := 0 |}
  end.

(** The loop the three [PushBits] variants share:
    [for i := 0; i < bits; i++ { PushBit(val&1 == 1); val >>= 1 }],
    with [n] the number of iterations left. *)
Fixpoint push_loop (n : nat) (val : Z) (v : streamWriter)
  : outcome streamWriter :=
  match n with
  | O => Ok v
  | S n' =>
      match PushBit (Z.land val 1 =? 1) v with
      | Panic p => Panic p
      | Ok v' => push_loop n' (Z.shiftr val 1) v'
      end
  end.

(** The diagnostic that [log.Print] writes when [bits] is above the
    width goes to the process log and leaves the writer alone: the
    loop runs all the same. *)
Definition PushBits (b : Z) (bits : Z) (v : streamWriter)
  : outcome streamWriter :=
  push_loop (Z.to_nat bits) b v.

Definition PushBits16 (b : Z) (bits : Z) (v : streamWriter)
  : outcome streamWriter :=
  push_loop (Z.to_nat bits) b v.

Definition PushBits32 (b : Z) (bits : Z) (v : streamWriter)
  : outcome streamWriter :=
  push_loop (Z.to_nat bits) b v.

Definition PushUint16 (val : Z) (v : streamWriter) : streamWriter :=
  WriteByte (uint8 (Z.shiftr val 8)) (WriteByte (uint8 val) v).

Definition PushInt16 (val : Z) (v : streamWriter) : streamWriter :=
  PushUint16 (uint16 val) v.

Definition PushUint32 (val : Z) (v : streamWriter) : streamWriter :=
  WriteByte (uint8 (Z.shiftr val 24))
    (WriteByte (uint8 (Z.shiftr val 16))
       (WriteByte (uint8 (Z.shiftr val 8))
          (WriteByte (uint8 val) v))).

Definition PushInt32 (val : Z) (v : streamWriter) : streamWriter :=
  PushUint32 (uint32 val) v.

Definition PushUint64 (val : Z) (v : streamWriter) : streamWriter :=
  WriteByte (uint8 (Z.shiftr val 56))
    (WriteByte (uint8 (Z.shiftr val 48))
       (WriteByte (uint8 (Z.shiftr val 40))
          (WriteByte (uint8 (Z.shiftr val 32))
             (WriteByte (uint8 (Z.shiftr val 24))
                (WriteByte (uint8 (Z.shiftr val 16))
                   (WriteByte (uint8 (Z.shiftr val 8))
                      (WriteByte (uint8 val) v))))))).

Definition PushInt64 (val : Z) (v : streamWriter) : streamWriter :=
  PushUint64 (uint64 val) v.

(** The byte-level pushes, with the bytes each one is asked to write. *)
Inductive byte_op : Type :=
| OpPushBytes (b : list Z)
| OpPushInt16 (val : Z)
| OpPushUint16 (val : Z)
| OpPushInt32 (val : Z)
| OpPushUint32 (val : Z)
| OpPushInt64 (val : Z)
| OpPushUint64 (val : Z).

(** The bit-level pushes. *)
Inductive bit_op : Type :=
| OpPushBit (b : bool)
| OpPushBits (b : Z) (bits : Z)
| OpPushBits16 (b : Z) (bits : Z)
| OpPushBits32 (b : Z) (bits : Z).

(** Every method of [*streamWriter] that changes it. *)
Inductive op : Type :=
| ByteOp (o : byte_op)
| BitOp (o : bit_op).

Definition run_byte_op (o : byte_op) (v : streamWriter) : streamWriter :=
  match o with
  | OpPushBytes b => PushBytes b v
  | OpPushInt16 val => PushInt16 val v
  | OpPushUint16 val => PushUint16 val v
  | OpPushInt32 val => PushInt32 val v
  | OpPushUint32 val => PushUint32 val v
  | OpPushInt64 val => PushInt64 val v
  | OpPushUint64 val => PushUint64 val v
  end.

Definition run_bit_op (o : bit_op) (v : streamWriter) : outcome streamWriter :=
  match o with
  | OpPushBit b => PushBit b v
  | OpPushBits b bits => PushBits b bits v
  | OpPushBits16 b bits => PushBits16 b bits v
  | OpPushBits32 b bits => PushBits32 b bits v
  end.

Definition run_op (o : op) (v : streamWriter) : outcome streamWriter :=
  match o with
  | ByteOp o => Ok (run_byte_op o v)
  | BitOp o => run_bit_op o v
  end.

(** The bytes a byte-level push appends, least significant first. *)
Definition le_bytes (n : nat) (val : Z) : list Z :=
  map (fun k => uint8 (Z.shiftr val (8 * Z.of_nat k))) (seq 0 n).

Definition bytes_of (o : byte_op) : list Z :=
  match o with
  | OpPushBytes b => b
  | OpPushInt16 val => le_bytes 2 (uint16 val)
  | OpPushUint16 val => le_bytes 2 val
  | OpPushInt32 val => le_bytes 4 (uint32 val)
  | OpPushUint32 val => le_bytes 4 val
  | OpPushInt64 val => le_bytes 8 (uint64 val)
  | OpPushUint64 val => le_bytes 8 val
  end.

(** A run of single-bit pushes. *)
Fixpoint push_bit_seq (bs : list bool) (v : streamWriter)
  : outcome streamWriter :=
  match bs with
  | [] => Ok v
  | b :: bs' =>
      match PushBit b v with
      | Panic p => Panic p
      | Ok v' => push_bit_seq bs' v'
      end
  end.

(** The bits the loop of [PushBits] pushes, in the order it pushes them. *)
Fixpoint val_bits (n : nat) (val : Z) : list bool :=
  match n with
  | O => []
  | S n' => (Z.land val 1 =? 1) :: val_bits n' (Z.shiftr val 1)
  end.

(** The cache after a run of single-bit pushes that starts at [offset]
    and does not complete the byte before its last bit. *)
Fixpoint fill (bs : list bool) (cache offset : Z) : Z :=
  match bs with
  | [] => cache
  | b :: bs' =>
      fill bs' (if b then Z.lor cache (shlU 8 1 offset) else cache) (offset + 1)
  end.

(** The value of a run of bits, first bit least significant. *)
Fixpoint bits_value (bs : list bool) : Z :=
  match bs with
  | [] => 0
  | b :: bs' => Z.b2z b + 2 * bits_value bs'
  end.

(** The writers a program can hold: a fresh one, and what a method
    that returned leaves of one. *)
Inductive reachable : streamWriter -> Prop :=
| reachable_create : reachable CreateStreamWriter
| reachable_op (o : op) (v v' : streamWriter) :
    reachable v -> run_op o v = Ok v' -> reachable v'.

(** The bit offset stays in [0, 8). *)
Definition offset_inv (v : streamWriter) : Prop := 0 <= bitOffset v < 8.

(** The pending bits are exactly the low [bitOffset] bits of the cache. *)
Definition cache_inv (v : streamWriter) : Prop :=
  0 <= bitCache v < 2 ^ bitOffset v.

(** The bits the writer has taken in: 8 for each byte of the buffer,
    and the pending ones. *)
Definition stream_bits (v : streamWriter) : Z :=
  8 * Z.of_nat (length (data v)) + bitOffset v.

(** The number they spell, first bit least significant: the bytes of
    the buffer, then the cache above them. *)
Definition stream_value (v : streamWriter) : Z :=
  le_value (data v) + 2 ^ (8 * Z.of_nat (length (data v))) * bitCache v.

(** A run of [PushBits] calls, one for each (value, count). *)
Fixpoint push_fields (fs : list (Z * Z)) (v : streamWriter)
  : outcome streamWriter :=
  match fs with
  | [] => Ok v
  | (val, bits) :: fs' => and_then (PushBits val bits v) (push_fields fs')
  end.

(** A field [PushBits] takes whole: a count of at most 8 and a value
    that fits in it. *)
Definition field_ok (f : Z * Z) : Prop :=
  0 <= snd f <= 8 /\ 0 <= fst f < 2 ^ snd f.

(** The number and the length of a run of fields laid end to end,
    first field lowest. *)
Fixpoint fields_value (fs : list (Z * Z)) : Z :=
  match fs with
  | [] => 0
  | (val, bits) :: fs' => val + 2 ^ bits * fields_value fs'
  end.

Fixpoint fields_bits (fs : list (Z * Z)) : Z :=
  match fs with
  | [] => 0
  | (_, bits) :: fs' => bits + fields_bits fs'
  end.

End StreamWriter.

(** ** BitStream *)

Module BitReader.

Record BitStream : Type := mkBitStream {
  data : list Z;
  dataPosition : Z;
  current : Z;
  bitCount : Z
}.

Definition maxBits : Z := 16.
Definition bitsPerByte : Z := 8.

Definition CreateBitStream (newData : list Z) : BitStream :=
  {| data := newData; dataPosition := 0; current := 0; bitCount := 0 |}.

(** A method of [*BitStream]: it returns a value and the stream as it
    left it, or panics. *)
Definition M (A : Type) : Type := BitStream -> outcome (A * BitStream).

Definition ret {A : Type} (a : A) : M A := fun v => Ok (a, v).

Definition bind {A B : Type} (m : M A) (k : A -> M B) : M B :=
  fun v => match m v with
           | Ok (a, v') => k a v'
           | Panic p => Panic p
           end.

Definition raise {A : Type} (p : panic) : M A := fun _ => Panic p.

Definition get : M BitStream := fun v => Ok (v, v).

Definition put (v' : BitStream) : M unit := fun _ => Ok (tt, v').

Declare Scope bits_scope.
Delimit Scope bits_scope with bits.
Notation "x <- m ;; k" := (bind m (fun x => k))
  (at level 61, m at next level, right associativity) : bits_scope.
Notation "m ;;; k" := (bind m (fun _ => k))
  (at level 61, right associativity) : bits_scope.
Local Open Scope bits_scope.

(** [v.data[i]] with Go's bounds check. *)
Definition index (s : list Z) (i : Z) : M Z :=
  if (i <? 0) || (Z.of_nat (length s) <=? i) then raise IndexOutOfRange
  else ret (nth (Z.to_nat i) s 0).

(** The three assignments that take [nextValue] into the register:
    [v.dataPosition++], [v.current |= int(nextValue) << uint(v.bitCount)]
    and [v.bitCount += 8]. *)
Definition pull (nextValue : Z) (v : BitStream) : BitStream :=
  {| data := data v;
     dataPosition := int (dataPosition v + 1);
     current := Z.lor (current v)
                  (shlS 64 (int nextValue) (uint (bitCount v)));
     bitCount := int (bitCount v + 8) |}.

Definition EnsureBits (bitCount' : Z) : M bool :=
  v <- get ;;
  if bitCount' <=? bitCount v then ret true
  else if Z.of_nat (length (data v)) <=? dataPosition v then ret false
  else
    nextValue <- index (data v) (dataPosition v) ;;
    put (pull nextValue v) ;;;
    ret true.

(** [v.current >>= uint(bitCount)] and [v.bitCount -= bitCount]. *)
Definition waste (bitCount' : Z) (v : BitStream) : BitStream :=
  {| data := data v;
     dataPosition := dataPosition v;
     current := shrS 64 (current v) (uint bitCount');
     bitCount := int (bitCount v - bitCount') |}.

Definition WasteBits (bitCount' : Z) : M unit :=
  v <- get ;;
  put (waste bitCount' v).

Definition ReadBits (bitCount' : Z) : M Z :=
  (if maxBits <? bitCount' then raise (LogPanic "Maximum BitCount is 16")
   else ret tt) ;;;
  ok <- EnsureBits bitCount' ;;
  if negb ok then ret (-1)
  else
    v <- get ;;
    let result :=
      Z.land (current v) (shrS 64 0xffff (uint (int (maxBits - bitCount')))) in
    WasteBits bitCount' ;;;
    ret result.

Definition PeekByte : M Z :=
  ok <- EnsureBits bitsPerByte ;;
  if negb ok then ret (-1)
  else
    v <- get ;;
    ret (Z.land (current v) 0xff).

(** The bits the stream has handed out so far: those of the bytes
    pulled, less the ones still resident in the register. *)
Definition consumed (v : BitStream) : Z := 8 * dataPosition v - bitCount v.

(** What the type of a [*BitStream] guarantees of its fields. *)
Definition wf (v : BitStream) : Prop :=
  Forall is_byte (data v) /\ Z.of_nat (length (data v)) <= maxInt /\
  is_int (dataPosition v) /\ is_int (current v) /\ is_int (bitCount v).

(** The state of a stream that has only been read within what
    [EnsureBits] provides: the buffer holds bytes, the cursor is inside
    it, and the register holds exactly [bitCount] bits. *)
Definition reg_inv (v : BitStream) : Prop :=
  Forall is_byte (data v) /\
  Z.of_nat (length (data v)) <= maxInt /\
  0 <= dataPosition v <= Z.of_nat (length (data v)) /\
  0 <= bitCount v <= 62 /\
  0 <= current v < 2 ^ bitCount v.

(** The bits not yet handed out, as a number, first bit least
    significant: the register, then the bytes after the cursor. *)
Definition pending_value (v : BitStream) : Z :=
  current v +
  2 ^ bitCount v * le_value (skipn (Z.to_nat (dataPosition v)) (data v)).

(** How many of them there are. *)
Definition available (v : BitStream) : Z :=
  bitCount v + 8 * (Z.of_nat (length (data v)) - dataPosition v).

(** A run of [ReadBits] calls, one for each count. *)
Fixpoint read_fields (ns : list Z) : M (list Z) :=
  match ns with
  | [] => ret []
  | n :: ns' =>
      r <- ReadBits n ;;
      rs <- read_fields ns' ;;
      ret (r :: rs)
  end.

(** A number cut into fields of the given widths, lowest first. *)
Fixpoint split_fields (ns : list Z) (x : Z) : list Z :=
  match ns with
  | [] => []
  | n :: ns' => x mod 2 ^ n :: split_fields ns' (x / 2 ^ n)
  end.

End BitReader.

(** * Properties *)

(** ** Machine integers *)

Module GoIntFacts.

Lemma uint64_small (z : Z) : is_uint64 z -> uint64 z = z.
Proof. unfold is_uint64, uint64, wrapU. intros H. now apply Z.mod_small. Qed.

Lemma uint8_small (z : Z) : is_byte z -> uint8 z = z.
Proof. unfold is_byte, uint8, wrapU. intros H. now apply Z.mod_small. Qed.

Lemma int_small (z : Z) : is_int z -> int z = z.
Proof.
  unfold is_int, minInt, maxInt, int, int64, wrapS. intros H.
  rewrite Z.mod_small; lia.
Qed.

End GoIntFacts.

(** ** streamReader *)

Module ReaderFacts.
Import StreamReader GoIntFacts.

Lemma Size_length (v : streamReader) :
  wf v -> Size v = Z.of_nat (length (data v)).
Proof.
  intros [_ Hlen]. unfold Size. apply uint64_small.
  unfold is_uint64, maxInt in *. lia.
Qed.

(** A read of [count > 0] bytes that the buffer cannot serve from the
    cursor takes the end-of-data branch. *)
Lemma ReadBytes_short (v : streamReader) (count : Z) :
  wf v -> 0 < count <= maxInt -> remaining v < count ->
  ReadBytes count v = (([], Some io_EOF), v).
Proof.
  intros Hwf Hc Hrem. unfold ReadBytes.
  destruct (count <=? 0) eqn:E; [apply Z.leb_le in E; lia|].
  cbv zeta. rewrite (Size_length v Hwf).
  unfold remaining, Position in Hrem. rewrite (Size_length v Hwf) in Hrem.
  destruct Hwf as [Hpos Hlen]. unfold is_uint64, maxInt in *.
  destruct (Z.of_nat (length (data v)) <=? position v) eqn:E1; [reflexivity|].
  apply Z.leb_gt in E1. cbn [orb].
  rewrite (uint64_small count) by (unfold is_uint64; lia).
  rewrite uint64_small by (unfold is_uint64; lia).
  destruct (Z.of_nat (length (data v)) <? position v + count) eqn:E2;
    [reflexivity|]. apply Z.ltb_ge in E2. lia.
Qed.

Lemma at_end_remaining (v : streamReader) :
  wf v -> Size v <= Position v -> remaining v = 0.
Proof. intros _ H. unfold remaining. lia. Qed.

Lemma ReadByte_at_end (v : streamReader) :
  Size v <= Position v -> ReadByte v = ((0, Some io_EOF), v).
Proof.
  unfold ReadByte, Position. intros H.
  apply Z.leb_le in H. now rewrite H.
Qed.

Lemma ReadUInt16_short (v : streamReader) :
  wf v -> remaining v < 2 -> ReadUInt16 v = ((0, Some io_EOF), v).
Proof.
  intros Hwf H. unfold ReadUInt16, bytesPerint16.
  rewrite ReadBytes_short; [reflexivity|assumption|unfold maxInt; lia|lia].
Qed.

Lemma ReadUInt32_short (v : streamReader) :
  wf v -> remaining v < 4 -> ReadUInt32 v = ((0, Some io_EOF), v).
Proof.
  intros Hwf H. unfold ReadUInt32, bytesPerint32.
  rewrite ReadBytes_short; [reflexivity|assumption|unfold maxInt; lia|lia].
Qed.

Lemma ReadUInt64_short (v : streamReader) :
  wf v -> remaining v < 8 -> ReadUInt64 v = ((0, Some io_EOF), v).
Proof.
  intros Hwf H. unfold ReadUInt64, bytesPerint64.
  rewrite ReadBytes_short; [reflexivity|assumption|unfold maxInt; lia|lia].
Qed.

(** The three signed reads convert what the unsigned ones return. *)
Lemma signed_reads_short (v : streamReader) :
  wf v ->
  (remaining v < 2 -> ReadInt16 v = ((0, Some io_EOF), v)) /\
  (remaining v < 4 -> ReadInt32 v = ((0, Some io_EOF), v)) /\
  (remaining v < 8 -> ReadInt64 v = ((0, Some io_EOF), v)).
Proof.
  intros Hwf. unfold ReadInt16, ReadInt32, ReadInt64. repeat split; intros H.
  - now rewrite ReadUInt16_short.
  - now rewrite ReadUInt32_short.
  - now rewrite ReadUInt64_short.
Qed.

(** C3, as the code has it: [EOF()] is true exactly when the cursor is
    at or past the end of the buffer, [Position() >= Size()]; so it is
    true exactly when [Position() == Size()] as long as the cursor has
    not been moved past the end. *)
Theorem EOF_iff_position_reaches_size (v : streamReader) :
  (EOF v = true <-> Size v <= Position v) /\
  (Position v <= Size v -> (EOF v = true <-> Position v = Size v)).
Proof.
  assert (H : EOF v = true <-> Size v <= Position v).
  { unfold EOF, Size, Position. apply Z.leb_le. }
  split; [exact H|]. intros Hle. rewrite H. lia.
Qed.

(** C3, counterexample: after [SkipBytes(2)] on a reader over one byte
    the cursor is past the end; [EOF()] is true and [Position()] is not
    [Size()]. *)
Lemma EOF_true_position_not_size :
  let v := SkipBytes 2 (CreateStreamReader [7]) in
  EOF v = true /\ Position v <> Size v /\
  ~ (EOF v = true <-> Position v = Size v).
Proof.
  cbv zeta. split; [reflexivity|]. split; [discriminate|].
  intros [H _]. specialize (H eq_refl). discriminate.
Qed.

(** C4: a [ReadBytes(count)] that asks for more than remains, and every
    fixed-width read at or past the end of the buffer, or with fewer
    bytes left than its width, fails with [io.EOF] and leaves the
    reader, cursor included, as it was. *)
Theorem reads_beyond_end_fail_unchanged (v : streamReader) (Hwf : wf v) :
  (forall count, is_int count -> remaining v < count ->
     fails_at_end [] (ReadBytes count v) v) /\
  (Size v <= Position v ->
     fails_at_end 0 (ReadByte v) v /\
     fails_at_end 0 (ReadUInt16 v) v /\ fails_at_end 0 (ReadInt16 v) v /\
     fails_at_end 0 (ReadUInt32 v) v /\ fails_at_end 0 (ReadInt32 v) v /\
     fails_at_end 0 (ReadUInt64 v) v /\ fails_at_end 0 (ReadInt64 v) v) /\
  (remaining v < 2 ->
     fails_at_end 0 (ReadUInt16 v) v /\ fails_at_end 0 (ReadInt16 v) v) /\
  (remaining v < 4 ->
     fails_at_end 0 (ReadUInt32 v) v /\ fails_at_end 0 (ReadInt32 v) v) /\
  (remaining v < 8 ->
     fails_at_end 0 (ReadUInt64 v) v /\ fails_at_end 0 (ReadInt64 v) v).
Proof.
  unfold fails_at_end.
  destruct (signed_reads_short v Hwf) as (S16 & S32 & S64).
  split; [|split; [|split; [|split]]].
  - intros count [_ Hmax] Hrem. apply ReadBytes_short; auto.
    unfold remaining in Hrem. lia.
  - intros Hend. assert (R := at_end_remaining v Hwf Hend).
    split; [now apply ReadByte_at_end|].
    split; [apply ReadUInt16_short; auto; lia|].
    split; [apply S16; lia|].
    split; [apply ReadUInt32_short; auto; lia|].
    split; [apply S32; lia|].
    split; [apply ReadUInt64_short; auto; lia|apply S64; lia].
  - intros H. split; [now apply ReadUInt16_short|now apply S16].
  - intros H. split; [now apply ReadUInt32_short|now apply S32].
  - intros H. split; [now apply ReadUInt64_short|now apply S64].
Qed.

(** C10: [ReadBytes(count)] with [count <= 0] returns no bytes and no
    error, and the reader is as it was. *)
Theorem ReadBytes_nonpositive_empty (v : streamReader) (count : Z) :
  count <= 0 -> ReadBytes count v = (([], None), v).
Proof.
  intros H. unfold ReadBytes. apply Z.leb_le in H. now rewrite H.
Qed.

(** C4, at a reader over three bytes with the cursor on the last one:
    one byte is left, so [ReadBytes(2)] and the 16-, 32- and 64-bit
    reads fail and the cursor stays at 2. *)
Lemma reads_beyond_end_witness :
  let v := SetPosition 2 (CreateStreamReader [1; 2; 3]) in
  wf v /\ remaining v < 2 /\
  fails_at_end [] (ReadBytes 2 v) v /\
  fails_at_end 0 (ReadUInt16 v) v /\
  fails_at_end 0 (ReadInt32 v) v /\
  fails_at_end 0 (ReadUInt64 v) v.
Proof.
  cbv zeta.
  assert (Hwf : wf (SetPosition 2 (CreateStreamReader [1; 2; 3]))).
  { unfold wf, is_uint64, maxInt. cbn. lia. }
  assert (Hrem : remaining (SetPosition 2 (CreateStreamReader [1; 2; 3])) < 2).
  { vm_compute. reflexivity. }
  destruct (reads_beyond_end_fail_unchanged _ Hwf) as (Hb & _ & H16 & H32 & H64).
  split; [exact Hwf|]. split; [exact Hrem|].
  split; [apply Hb; [unfold is_int, minInt, maxInt; lia|exact Hrem]|].
  split; [apply H16; exact Hrem|].
  split; [apply H32; lia|apply H64; lia].
Defined.

(** C10, at a negative count on a reader in mid-buffer. *)
Lemma ReadBytes_nonpositive_witness :
  let v := SetPosition 1 (CreateStreamReader [1; 2; 3]) in
  -3 <= 0 /\ ReadBytes (-3) v = (([], None), v) /\ Position v = 1.
Proof.
  cbv zeta. split; [lia|].
  split; [apply ReadBytes_nonpositive_empty; lia|reflexivity].
Defined.

End ReaderFacts.

(** ** streamWriter *)

Module WriterFacts.
Import StreamWriter GoIntFacts.

Lemma PushBytes_app (b : list Z) (v : streamWriter) :
  PushBytes b v =
  {| data := data v ++ b; bitOffset := bitOffset v; bitCache := bitCache v |}.
Proof.
  unfold PushBytes. revert v.
  induction b as [|c b IH]; intros v; cbn [fold_left].
  - rewrite app_nil_r. now destruct v.
  - rewrite IH. unfold WriteByte. cbn. now rewrite <- app_assoc.
Qed.

(** A byte-level push appends its bytes and touches neither scratch
    field. *)
Lemma run_byte_op_app (o : byte_op) (v : streamWriter) :
  run_byte_op o v =
  {| data := data v ++ bytes_of o;
     bitOffset := bitOffset v; bitCache := bitCache v |}.
Proof.
  destruct o; cbn [run_byte_op bytes_of];
    [apply PushBytes_app| | | | | |];
    unfold PushInt16, PushUint16, PushInt32, PushUint32, PushInt64,
      PushUint64, WriteByte, le_bytes; cbn [data bitOffset bitCache map seq];
    repeat rewrite <- app_assoc; cbn [app Z.of_nat Z.mul Pos.of_succ_nat Pos.succ Pos.mul];
    now rewrite ?Z.shiftr_0_r.
Qed.

(** One single-bit push from an offset in [0, 8). *)
Lemma PushBit_step (b : bool) (v : streamWriter) :
  offset_inv v ->
  PushBit b v =
  Ok (if bitOffset v =? 7
      then {| data := data v ++ [fill [b] (bitCache v) (bitOffset v)];
              bitOffset := 0; bitCache := 0 |}
      else {| data := data v; bitOffset := bitOffset v + 1;
              bitCache := fill [b] (bitCache v) (bitOffset v) |}).
Proof.
  unfold offset_inv, PushBit, set_bit, bitsPerByte. intros H.
  destruct (bitOffset v <? 0) eqn:E; [apply Z.ltb_lt in E; lia|].
  rewrite int_small by (unfold is_int, minInt, maxInt; lia).
  replace (bitOffset v + 1 =? 8) with (bitOffset v =? 7)
    by (destruct (Z.eqb_spec (bitOffset v) 7), (Z.eqb_spec (bitOffset v + 1) 8);
        reflexivity || lia).
  destruct b, (bitOffset v =? 7); cbn [negb fill]; now rewrite ?PushBytes_app.
Qed.

Lemma PushBit_offset_inv (b : bool) (v : streamWriter) :
  offset_inv v -> exists v', PushBit b v = Ok v' /\ offset_inv v'.
Proof.
  intros H. rewrite (PushBit_step b v H). eexists. split; [reflexivity|].
  unfold offset_inv in *.
  destruct (Z.eqb_spec (bitOffset v) 7); cbn [bitOffset]; lia.
Qed.

Lemma push_bit_seq_offset_inv (bs : list bool) (v : streamWriter) :
  offset_inv v -> exists v', push_bit_seq bs v = Ok v' /\ offset_inv v'.
Proof.
  revert v. induction bs as [|b bs IH]; intros v H; cbn [push_bit_seq].
  - now exists v.
  - destruct (PushBit_offset_inv b v H) as (v1 & -> & H1). now apply IH.
Qed.

Lemma push_loop_bit_seq (n : nat) (val : Z) (v : streamWriter) :
  push_loop n val v = push_bit_seq (val_bits n val) v.
Proof.
  revert val v. induction n as [|n IH]; intros val v;
    cbn [push_loop val_bits push_bit_seq]; [reflexivity|].
  destruct (PushBit _ v); [apply IH|reflexivity].
Qed.

Lemma run_op_offset_inv (o : op) (v : streamWriter) :
  offset_inv v -> exists v', run_op o v = Ok v' /\ offset_inv v'.
Proof.
  intros H. destruct o as [o|o]; cbn [run_op].
  - eexists. split; [reflexivity|]. now rewrite run_byte_op_app.
  - destruct o; cbn [run_bit_op];
      unfold PushBits, PushBits16, PushBits32;
      rewrite ?push_loop_bit_seq;
      auto using PushBit_offset_inv, push_bit_seq_offset_inv.
Qed.

(** A run of bits that stops short of the byte boundary stays in the
    cache; one that reaches it appends the byte. *)
Lemma push_bit_seq_fill (bs : list bool) (v : streamWriter) :
  offset_inv v -> bitOffset v + Z.of_nat (length bs) <= 8 ->
  push_bit_seq bs v =
  Ok (if bitOffset v + Z.of_nat (length bs) <? 8
      then {| data := data v;
              bitOffset := bitOffset v + Z.of_nat (length bs);
              bitCache := fill bs (bitCache v) (bitOffset v) |}
      else
        if Z.of_nat (length bs) =? 0 then v
        else {| data := data v ++ [fill bs (bitCache v) (bitOffset v)];
                bitOffset := 0; bitCache := 0 |}).
Proof.
  revert v. induction bs as [|b bs IH]; intros v H Hlen.
  - cbn [push_bit_seq length fill Z.of_nat]. rewrite Z.add_0_r.
    unfold offset_inv in H.
    destruct (Z.ltb_spec (bitOffset v) 8); [now destruct v|lia].
  - cbn [push_bit_seq]. rewrite (PushBit_step b v H).
    unfold offset_inv in H. cbn [length] in *.
    rewrite Nat2Z.inj_succ in *.
    destruct (Z.eqb_spec (bitOffset v) 7) as [E7|E7].
    + assert (length bs = 0%nat) by lia.
      destruct bs; [|discriminate]. cbn [push_bit_seq length Z.of_nat fill].
      rewrite E7. reflexivity.
    + rewrite IH by (unfold offset_inv; cbn [bitOffset]; lia).
      cbn [bitOffset data bitCache fill].
      replace (bitOffset v + 1 + Z.of_nat (length bs))
        with (bitOffset v + Z.succ (Z.of_nat (length bs))) by lia.
      destruct (Z.ltb_spec (bitOffset v + Z.succ (Z.of_nat (length bs))) 8);
        [reflexivity|].
      destruct (Z.eqb_spec (Z.of_nat (length bs)) 0); [lia|].
      destruct (Z.eqb_spec (Z.succ (Z.of_nat (length bs))) 0); [lia|].
      reflexivity.
Qed.

Lemma shlU_one (o : Z) : 0 <= o < 8 -> shlU 8 1 o = 2 ^ o.
Proof.
  intros H. unfold shlU, wrapU. rewrite Z.shiftl_1_l.
  apply Z.mod_small. split; [apply Z.pow_nonneg; lia|].
  apply Z.pow_lt_mono_r; lia.
Qed.

Lemma lor_pow2_above (c o : Z) :
  0 <= o -> 0 <= c < 2 ^ o -> Z.lor c (2 ^ o) = c + 2 ^ o.
Proof.
  intros Ho Hc. rewrite <- Z.lxor_lor.
  - symmetry. apply Z.add_nocarry_lxor.
    apply Z.bits_inj'. intros n Hn.
    rewrite Z.land_spec, Z.bits_0, Z.pow2_bits_eqb by lia.
    destruct (Z.eqb_spec o n) as [->|]; [|apply andb_false_r].
    rewrite <- (Z.mod_small c (2 ^ n)) by lia.
    rewrite Z.mod_pow2_bits_high by lia. reflexivity.
  - apply Z.bits_inj'. intros n Hn.
    rewrite Z.land_spec, Z.bits_0, Z.pow2_bits_eqb by lia.
    destruct (Z.eqb_spec o n) as [->|]; [|apply andb_false_r].
    rewrite <- (Z.mod_small c (2 ^ n)) by lia.
    rewrite Z.mod_pow2_bits_high by lia. reflexivity.
Qed.

Lemma bits_value_range (bs : list bool) :
  0 <= bits_value bs < 2 ^ Z.of_nat (length bs).
Proof.
  induction bs as [|b bs IH]; cbn [bits_value length]; [cbn; lia|].
  rewrite Nat2Z.inj_succ, Z.pow_succ_r by lia.
  destruct b; cbn [Z.b2z]; lia.
Qed.

Lemma bits_value_app (bs bs' : list bool) :
  bits_value (bs ++ bs') =
  bits_value bs + 2 ^ Z.of_nat (length bs) * bits_value bs'.
Proof.
  induction bs as [|b bs IH]; cbn [bits_value length app].
  - change (Z.of_nat 0) with 0. rewrite Z.pow_0_r. lia.
  - rewrite IH, Nat2Z.inj_succ, Z.pow_succ_r by lia. ring.
Qed.

(** Under the cache invariant the cache is a number: the bits pushed
    so far, first bit least significant. *)
Lemma fill_value (bs : list bool) (c o : Z) :
  0 <= o -> o + Z.of_nat (length bs) <= 8 -> 0 <= c < 2 ^ o ->
  fill bs c o = c + 2 ^ o * bits_value bs.
Proof.
  revert c o. induction bs as [|b bs IH]; intros c o Ho Hlen Hc;
    cbn [fill bits_value length] in *; [lia|].
  rewrite Nat2Z.inj_succ in Hlen.
  assert (Hp : 2 ^ (o + 1) = 2 * 2 ^ o) by (rewrite Z.pow_add_r; lia).
  rewrite IH; [| lia | lia |].
  - rewrite Hp. destruct b; cbn [Z.b2z].
    + rewrite shlU_one, lor_pow2_above by lia. ring.
    + ring.
  - rewrite Hp. destruct b.
    + rewrite shlU_one, lor_pow2_above by lia. lia.
    + lia.
Qed.

Lemma val_bits_length (n : nat) (val : Z) : length (val_bits n val) = n.
Proof.
  revert val. induction n as [|n IH]; intros val; cbn [val_bits length];
    [reflexivity|now rewrite IH].
Qed.

(** The loop of [PushBits] pushes the low [n] bits of the value. *)
Lemma val_bits_value (n : nat) (val : Z) :
  bits_value (val_bits n val) = val mod 2 ^ Z.of_nat n.
Proof.
  revert val. induction n as [|n IH]; intros val; cbn [val_bits bits_value].
  - cbn. now rewrite Z.mod_1_r.
  - rewrite IH, Nat2Z.inj_succ, Z.pow_succ_r by lia.
    rewrite Z.rem_mul_r by lia.
    rewrite Z.shiftr_div_pow2 by lia. change (2 ^ 1) with 2.
    change 1 with (Z.ones 1) at 1. rewrite Z.land_ones by lia.
    change (2 ^ 1) with 2.
    assert (H := Z.mod_pos_bound val 2 ltac:(lia)).
    destruct (Z.eqb_spec (val mod 2) 1) as [E|E]; cbn [Z.b2z]; lia.
Qed.



(** Both scratch invariants survive a single-bit push. *)
Lemma PushBit_scratch_inv (b : bool) (v : streamWriter) :
  offset_inv v -> cache_inv v ->
  exists v', PushBit b v = Ok v' /\ offset_inv v' /\ cache_inv v'.
Proof.
  intros Ho Hc. rewrite (PushBit_step b v Ho). eexists. split; [reflexivity|].
  unfold offset_inv, cache_inv in *.
  destruct (Z.eqb_spec (bitOffset v) 7) as [E|E]; cbn [bitOffset bitCache fill].
  - cbn. lia.
  - split; [lia|].
    rewrite Z.pow_add_r, Z.pow_1_r by lia.
    destruct b; [rewrite shlU_one, lor_pow2_above by lia|]; lia.
Qed.

Lemma push_bit_seq_scratch_inv (bs : list bool) (v : streamWriter) :
  offset_inv v -> cache_inv v ->
  exists v', push_bit_seq bs v = Ok v' /\ offset_inv v' /\ cache_inv v'.
Proof.
  revert v. induction bs as [|b bs IH]; intros v Ho Hc; cbn [push_bit_seq].
  - now exists v.
  - destruct (PushBit_scratch_inv b v Ho Hc) as (v1 & -> & Ho1 & Hc1).
    now apply IH.
Qed.

Lemma run_op_scratch_inv (o : op) (v : streamWriter) :
  offset_inv v -> cache_inv v ->
  exists v', run_op o v = Ok v' /\ offset_inv v' /\ cache_inv v'.
Proof.
  intros Ho Hc. destruct o as [o|o]; cbn [run_op].
  - eexists. split; [reflexivity|]. now rewrite run_byte_op_app.
  - destruct o; cbn [run_bit_op];
      unfold PushBits, PushBits16, PushBits32;
      rewrite ?push_loop_bit_seq;
      auto using PushBit_scratch_inv, push_bit_seq_scratch_inv.
Qed.

(** Every writer a program can hold satisfies both invariants, and no
    method panics on it. *)
Lemma reachable_scratch_inv (v : streamWriter) :
  reachable v -> offset_inv v /\ cache_inv v.
Proof.
  induction 1 as [|o v v' _ [Ho Hc] Hrun].
  - unfold offset_inv, cache_inv. cbn. lia.
  - destruct (run_op_scratch_inv o v Ho Hc) as (v1 & E & H1).
    rewrite E in Hrun. injection Hrun as <-. exact H1.
Qed.

Lemma reachable_returns (v : streamWriter) (o : op) :
  reachable v -> exists v', run_op o v = Ok v' /\ reachable v'.
Proof.
  intros Hr. destruct (reachable_scratch_inv v Hr) as [Ho Hc].
  destruct (run_op_scratch_inv o v Ho Hc) as (v' & E & _).
  exists v'. split; [exact E|]. now apply (reachable_op o v).
Qed.

Lemma fill_app (bs bs' : list bool) (c o : Z) :
  fill (bs ++ bs') c o = fill bs' (fill bs c o) (o + Z.of_nat (length bs)).
Proof.
  revert c o. induction bs as [|b bs IH]; intros c o; cbn [fill app length].
  - now rewrite Z.add_0_r.
  - rewrite IH, Nat2Z.inj_succ. f_equal. lia.
Qed.

(** C5: from an offset in [0, 8) every operation returns with the
    offset in [0, 8); the push of the eighth bit appends the cache and
    zeroes both scratch fields, and an earlier one leaves [GetBytes()]
    alone; a byte-level push appends its own bytes and touches neither
    scratch field; so pending bits stay out of [GetBytes()] across a
    byte-level push, and the byte they belong to is appended, after the
    bytes of that push, by the bit push that completes it. *)
Theorem bit_offset_invariant_and_pending_byte
    (v : streamWriter) (Hinv : offset_inv v) :
  (forall o, exists v', run_op o v = Ok v' /\ offset_inv v') /\
  (forall b, bitOffset v = 7 ->
     PushBit b v =
     Ok {| data := data v ++ [if b then Z.lor (bitCache v) 128 else bitCache v];
           bitOffset := 0; bitCache := 0 |}) /\
  (forall b, bitOffset v <> 7 ->
     exists v', PushBit b v = Ok v' /\ GetBytes v' = GetBytes v /\
                bitOffset v' = bitOffset v + 1) /\
  (forall o, GetBytes (run_byte_op o v) = GetBytes v ++ bytes_of o /\
             bitOffset (run_byte_op o v) = bitOffset v /\
             bitCache (run_byte_op o v) = bitCache v) /\
  (forall bs o bs',
     cache_inv v ->
     bitOffset v + Z.of_nat (length bs) < 8 ->
     bitOffset v + Z.of_nat (length bs) + Z.of_nat (length bs') = 8 ->
     exists v1 v3,
       push_bit_seq bs v = Ok v1 /\
       GetBytes v1 = GetBytes v /\
       GetBytes (run_byte_op o v1) = GetBytes v ++ bytes_of o /\
       push_bit_seq bs' (run_byte_op o v1) = Ok v3 /\
       GetBytes v3 =
         GetBytes v ++ bytes_of o ++
         [bitCache v + 2 ^ bitOffset v * bits_value (bs ++ bs')] /\
       bitOffset v3 = 0 /\ bitCache v3 = 0).
Proof.
  split; [intros o; now apply run_op_offset_inv|].
  split; [|split; [|split]].
  - intros b H7. rewrite (PushBit_step b v Hinv), H7. reflexivity.
  - intros b H7. rewrite (PushBit_step b v Hinv).
    destruct (Z.eqb_spec (bitOffset v) 7); [contradiction|].
    eexists. repeat split.
  - intros o. rewrite run_byte_op_app. repeat split.
  - intros bs o bs' Hc Hlt Heq. unfold cache_inv, offset_inv in *.
    rewrite (push_bit_seq_fill bs v Hinv) by lia.
    destruct (Z.ltb_spec (bitOffset v + Z.of_nat (length bs)) 8); [|lia].
    eexists. eexists. split; [reflexivity|]. split; [reflexivity|].
    rewrite run_byte_op_app. cbn [data bitOffset bitCache GetBytes].
    split; [reflexivity|].
    rewrite push_bit_seq_fill
      by (unfold offset_inv; cbn [bitOffset]; lia).
    cbn [data bitOffset bitCache].
    destruct (Z.ltb_spec
                (bitOffset v + Z.of_nat (length bs) + Z.of_nat (length bs')) 8);
      [lia|].
    destruct (Z.eqb_spec (Z.of_nat (length bs')) 0); [lia|].
    split; [reflexivity|]. cbn [data bitOffset bitCache].
    rewrite <- fill_app, fill_value, <- app_assoc; auto; try lia.
    rewrite length_app, Nat2Z.inj_add. lia.
Qed.

Lemma ReadUInt32_four_bytes (a b c d : Z) :
  StreamReader.ReadUInt32 (StreamReader.CreateStreamReader [a; b; c; d]) =
  ((Z.lor (Z.lor (Z.lor (uint32 a) (shlU 32 (uint32 b) 8))
                 (shlU 32 (uint32 c) 16))
          (shlU 32 (uint32 d) 24), None),
   StreamReader.SetPosition 4 (StreamReader.CreateStreamReader [a; b; c; d])).
Proof. reflexivity. Qed.

(** The little-endian bytes of a 32-bit value put it back together. *)
Lemma le32_combine (val : Z) :
  0 <= val < 2 ^ 32 ->
  Z.lor (Z.lor (Z.lor (uint32 (uint8 val))
                      (shlU 32 (uint32 (uint8 (Z.shiftr val 8))) 8))
               (shlU 32 (uint32 (uint8 (Z.shiftr val 16))) 16))
        (shlU 32 (uint32 (uint8 (Z.shiftr val 24))) 24) = val.
Proof.
  intros H. unfold shlU, uint32, uint8, wrapU.
  rewrite <- (Z.mod_small val (2 ^ 32)) at 5 by assumption.
  Z.bitblast.
Qed.

(** C8: the four bytes [PushUint32] writes are read back by
    [ReadUInt32] as the value pushed, with no error and the cursor
    after them. *)
Theorem PushUint32_ReadUInt32_roundtrip (val : Z) :
  0 <= val < 2 ^ 32 ->
  let bytes := GetBytes (PushUint32 val CreateStreamWriter) in
  StreamReader.ReadUInt32 (StreamReader.CreateStreamReader bytes) =
  ((val, None),
   StreamReader.SetPosition 4 (StreamReader.CreateStreamReader bytes)).
Proof.
  intros H. cbv zeta.
  change (GetBytes (PushUint32 val CreateStreamWriter))
    with [uint8 val; uint8 (Z.shiftr val 8); uint8 (Z.shiftr val 16);
          uint8 (Z.shiftr val 24)].
  rewrite ReadUInt32_four_bytes, le32_combine by assumption. reflexivity.
Qed.

(** C5, at a writer holding one byte and three pending bits. *)
Lemma bit_offset_invariant_witness :
  let v := {| data := [0x2A]; bitOffset := 3; bitCache := 5 |} in
  offset_inv v /\
  (forall o, exists v', run_op o v = Ok v' /\ offset_inv v') /\
  (forall o, GetBytes (run_byte_op o v) = GetBytes v ++ bytes_of o /\
             bitOffset (run_byte_op o v) = bitOffset v /\
             bitCache (run_byte_op o v) = bitCache v).
Proof.
  cbv zeta.
  assert (Hinv : offset_inv {| data := [0x2A]; bitOffset := 3; bitCache := 5 |}).
  { unfold offset_inv. cbn. lia. }
  destruct (bit_offset_invariant_and_pending_byte _ Hinv)
    as (Hop & _ & _ & Hbyte & _).
  split; [exact Hinv|]. split; [exact Hop|exact Hbyte].
Defined.

(** C8, at [0x12345678]. *)
Lemma PushUint32_ReadUInt32_witness :
  0 <= 0x12345678 < 2 ^ 32 /\
  StreamReader.ReadUInt32
    (StreamReader.CreateStreamReader
       (GetBytes (PushUint32 0x12345678 CreateStreamWriter))) =
  ((0x12345678, None),
   StreamReader.SetPosition 4
     (StreamReader.CreateStreamReader [0x78; 0x56; 0x34; 0x12])).
Proof.
  split; [lia|]. apply (PushUint32_ReadUInt32_roundtrip 0x12345678). lia.
Defined.

End WriterFacts.

(** ** BitStream *)

Module BitFacts.
Import BitReader GoIntFacts.
Local Open Scope bits_scope.

(** [EnsureBits] has four ways out. *)
Lemma EnsureBits_resident (n : Z) (v : BitStream) :
  n <= bitCount v -> EnsureBits n v = Ok (true, v).
Proof.
  intros H. unfold EnsureBits, bind, get.
  apply Z.leb_le in H. now rewrite H.
Qed.

Lemma EnsureBits_exhausted (n : Z) (v : BitStream) :
  bitCount v < n -> Z.of_nat (length (data v)) <= dataPosition v ->
  EnsureBits n v = Ok (false, v).
Proof.
  intros H1 H2. unfold EnsureBits, bind, get.
  apply Z.leb_gt in H1. apply Z.leb_le in H2. now rewrite H1, H2.
Qed.

Lemma EnsureBits_pull (n : Z) (v : BitStream) :
  bitCount v < n -> 0 <= dataPosition v < Z.of_nat (length (data v)) ->
  EnsureBits n v = Ok (true, pull (nth (Z.to_nat (dataPosition v)) (data v) 0) v).
Proof.
  intros H1 [H2 H3]. unfold EnsureBits, bind, get, index.
  apply Z.leb_gt in H1. rewrite H1.
  destruct (Z.leb_spec (Z.of_nat (length (data v))) (dataPosition v)); [lia|].
  destruct (Z.ltb_spec (dataPosition v) 0); [lia|]. reflexivity.
Qed.

Lemma EnsureBits_negative_cursor (n : Z) (v : BitStream) :
  bitCount v < n -> dataPosition v < 0 ->
  EnsureBits n v = Panic IndexOutOfRange.
Proof.
  intros H1 H2. unfold EnsureBits, bind, get, index.
  apply Z.leb_gt in H1. rewrite H1.
  destruct (Z.leb_spec (Z.of_nat (length (data v))) (dataPosition v)); [lia|].
  destruct (Z.ltb_spec (dataPosition v) 0); [reflexivity|lia].
Qed.

Lemma EnsureBits_cases (n : Z) (v : BitStream) :
  (n <= bitCount v /\ EnsureBits n v = Ok (true, v)) \/
  (bitCount v < n /\ Z.of_nat (length (data v)) <= dataPosition v /\
   EnsureBits n v = Ok (false, v)) \/
  (bitCount v < n /\ 0 <= dataPosition v < Z.of_nat (length (data v)) /\
   EnsureBits n v = Ok (true, pull (nth (Z.to_nat (dataPosition v)) (data v) 0) v)) \/
  (bitCount v < n /\ dataPosition v < 0 /\
   EnsureBits n v = Panic IndexOutOfRange).
Proof.
  destruct (Z.le_gt_cases n (bitCount v)) as [H|H];
    [left; auto using EnsureBits_resident|right].
  destruct (Z.le_gt_cases (Z.of_nat (length (data v))) (dataPosition v)) as [H1|H1];
    [left; auto using EnsureBits_exhausted with zarith|right].
  destruct (Z.le_gt_cases 0 (dataPosition v)) as [H2|H2];
    [left|right]; repeat split; try lia.
  - apply EnsureBits_pull; lia.
  - apply EnsureBits_negative_cursor; lia.
Qed.

(** [EnsureBits] reports failure only when the request exceeds the
    resident bits and no byte is left in the buffer. *)
Lemma EnsureBits_false_exhausted (n : Z) (v v' : BitStream) :
  EnsureBits n v = Ok (false, v') ->
  bitCount v < n /\ Z.of_nat (length (data v)) <= dataPosition v /\ v' = v.
Proof.
  intros H.
  destruct (EnsureBits_cases n v)
    as [(_ & E)|[(H1 & H2 & E)|[(_ & _ & E)|(_ & _ & E)]]];
    rewrite E in H; try discriminate.
  injection H as <-. auto.
Qed.

(** A call pulls at most one byte: success adds 8 bits or none. *)
Lemma EnsureBits_pulls_at_most_one (n : Z) (v v' : BitStream) :
  EnsureBits n v = Ok (true, v') ->
  v' = v \/ (bitCount v' = int (bitCount v + 8) /\
             dataPosition v' = int (dataPosition v + 1)).
Proof.
  intros H.
  destruct (EnsureBits_cases n v)
    as [(_ & E)|[(H1 & H2 & E)|[(_ & _ & E)|(_ & _ & E)]]];
    rewrite E in H; try discriminate; injection H as <-; auto.
Qed.

(** A request of at most 8 bits on a register that is not in deficit
    is satisfied whenever it succeeds. *)
Lemma EnsureBits_byte_ensured (n : Z) (v v' : BitStream) :
  n <= 8 -> 0 <= bitCount v <= maxInt - 8 ->
  EnsureBits n v = Ok (true, v') -> n <= bitCount v'.
Proof.
  intros Hn Hb H.
  destruct (EnsureBits_cases n v)
    as [(H0 & E)|[(H1 & H2 & E)|[(_ & _ & E)|(_ & _ & E)]]];
    rewrite E in H; try discriminate; injection H as <-; [assumption|].
  unfold pull; cbn [bitCount]. rewrite int_small; unfold is_int, minInt, maxInt in *; lia.
Qed.

(** The mask of [ReadBits] keeps the low [n] bits. *)
Lemma ReadBits_mask (n : Z) :
  0 <= n <= 16 -> shrS 64 0xffff (uint (int (maxBits - n))) = Z.ones n.
Proof.
  intros H. unfold maxBits.
  rewrite int_small by (unfold is_int, minInt, maxInt; lia).
  unfold uint. rewrite uint64_small by (unfold is_uint64; lia).
  unfold shrS. destruct (Z.leb_spec 64 (16 - n)); [lia|].
  change 0xffff with (Z.ones 16).
  rewrite Z.shiftr_div_pow2, Z.ones_div_pow2 by lia. f_equal. lia.
Qed.

Lemma ReadBits_unfold (n : Z) (v : BitStream) :
  0 <= n <= 16 ->
  ReadBits n v =
  match EnsureBits n v with
  | Panic p => Panic p
  | Ok (false, v1) => Ok (-1, v1)
  | Ok (true, v1) => Ok (Z.land (current v1) (Z.ones n), waste n v1)
  end.
Proof.
  intros H. unfold ReadBits, maxBits.
  destruct (Z.ltb_spec 16 n); [lia|].
  unfold bind at 1. unfold ret at 1. unfold bind at 1.
  destruct (EnsureBits n v) as [[[|] v1]|p]; cbn [negb]; try reflexivity.
  unfold bind, get, WasteBits, put, ret.
  fold maxBits. now rewrite ReadBits_mask.
Qed.

Lemma PeekByte_unfold (v : BitStream) :
  PeekByte v =
  match EnsureBits 8 v with
  | Panic p => Panic p
  | Ok (false, v1) => Ok (-1, v1)
  | Ok (true, v1) => Ok (Z.land (current v1) (Z.ones 8), v1)
  end.
Proof.
  unfold PeekByte, bitsPerByte. unfold bind at 1.
  destruct (EnsureBits 8 v) as [[[|] v1]|p]; reflexivity.
Qed.

Lemma land_ones_range (x n : Z) : 0 <= n -> 0 <= Z.land x (Z.ones n) < 2 ^ n.
Proof.
  intros H. rewrite Z.land_ones by assumption.
  apply Z.mod_pos_bound. apply Z.pow_pos_nonneg; lia.
Qed.

(** On a register that is not in deficit, a byte that [PeekByte] shows
    is the byte the next [ReadBits(8)] returns, and only the read
    consumes. *)
Lemma PeekByte_then_ReadBits (v v1 : BitStream) (r : Z) :
  Z.of_nat (length (data v)) <= maxInt ->
  0 <= bitCount v <= maxInt ->
  PeekByte v = Ok (r, v1) -> r <> -1 ->
  exists v2, ReadBits 8 v1 = Ok (r, v2) /\
             consumed v1 = consumed v /\ consumed v2 = consumed v + 8.
Proof.
  intros Hlen Hbc Hpeek Hr. rewrite PeekByte_unfold in Hpeek.
  rewrite ReadBits_unfold by lia. unfold consumed, maxInt in *.
  destruct (EnsureBits_cases 8 v)
    as [(H0 & E)|[(H1 & H2 & E)|[(H1 & H2 & E)|(_ & _ & E)]]];
    rewrite E in Hpeek; try discriminate; injection Hpeek as <- <-.
  - rewrite E. eexists. split; [reflexivity|]. unfold pull, waste; cbn [bitCount dataPosition].
    rewrite int_small by (unfold is_int, minInt, maxInt; lia). lia.
  - congruence.
  - assert (Hb : int (bitCount v + 8) = bitCount v + 8)
      by (apply int_small; unfold is_int, minInt, maxInt; lia).
    assert (Hd : int (dataPosition v + 1) = dataPosition v + 1)
      by (apply int_small; unfold is_int, minInt, maxInt; lia).
    rewrite EnsureBits_resident by (unfold pull; cbn [bitCount]; lia).
    eexists. split; [reflexivity|]. unfold pull, waste; cbn [bitCount dataPosition].
    rewrite Hb, Hd.
    rewrite int_small by (unfold is_int, minInt, maxInt; lia). lia.
Qed.

(** C1, at the input where the code falls short: on a fresh stream over
    two bytes [EnsureBits(16)] reports success having pulled one byte;
    the register holds 8 bits, not 16, and the second byte is still in
    the buffer. *)
Theorem EnsureBits_16_pulls_one_byte :
  let v := CreateBitStream [0xAB; 0xCD] in
  let v' := {| data := [0xAB; 0xCD]; dataPosition := 1;
               current := 0xAB; bitCount := 8 |} in
  wf v /\
  EnsureBits 16 v = Ok (true, v') /\
  bitCount v' < 16 /\
  dataPosition v' < Z.of_nat (length (data v')).
Proof.
  cbv zeta. split; [|split; [vm_compute; reflexivity|cbn; lia]].
  unfold wf, is_int, is_byte, minInt, maxInt. cbn.
  repeat split; try lia. repeat constructor; lia.
Qed.

(** C6: [ReadBits] with a count above 16 panics with the message of
    [log.Panic], whatever the stream holds; it does not return, so the
    outcome is not the -1 of end of data nor any other value. *)
Theorem ReadBits_above_maxBits_panics (v : BitStream) (n : Z) :
  maxBits < n ->
  ReadBits n v = Panic (LogPanic "Maximum BitCount is 16") /\
  (forall r v', ReadBits n v <> Ok (r, v')).
Proof.
  intros H.
  assert (E : ReadBits n v = Panic (LogPanic "Maximum BitCount is 16")).
  { unfold ReadBits. apply Z.ltb_lt in H. rewrite H. reflexivity. }
  split; [exact E|]. intros r v'. rewrite E. discriminate.
Qed.

(** C7, at the input where the code falls short: after [ReadBits(16)]
    on a fresh stream over three bytes the register is 8 bits in
    deficit; [PeekByte()] then succeeds with 0 and the [ReadBits(8)]
    that follows returns 2, the third byte. *)
Theorem PeekByte_ReadBits_differ_after_ReadBits_16 :
  let bytes := [0xAB; 0x01; 0x02] in
  let v1 := {| data := bytes; dataPosition := 1;
               current := 0; bitCount := -8 |} in
  let v2 := {| data := bytes; dataPosition := 2;
               current := 0; bitCount := 0 |} in
  let v3 := {| data := bytes; dataPosition := 3;
               current := 0; bitCount := 0 |} in
  wf (CreateBitStream bytes) /\
  ReadBits 16 (CreateBitStream bytes) = Ok (0xAB, v1) /\
  PeekByte v1 = Ok (0, v2) /\
  ReadBits 8 v2 = Ok (2, v3).
Proof.
  cbv zeta. split; [|repeat split; vm_compute; reflexivity].
  unfold wf, is_int, is_byte, minInt, maxInt. cbn.
  repeat split; try lia. repeat constructor; lia.
Qed.

(** C9: for a count in (0, 16], [ReadBits] returns -1 exactly when
    [EnsureBits] reported failure, with the stream as it was, and
    otherwise a value in [0, 2^count); [PeekByte] likewise returns -1
    or a value in [0, 256).  Neither panics unless the byte cursor is
    negative. *)
Theorem ReadBits_PeekByte_value_range (v : BitStream) (n : Z) :
  0 < n <= 16 ->
  match ReadBits n v with
  | Ok (r, v') =>
      (r = -1 /\ v' = v /\ EnsureBits n v = Ok (false, v)) \/
      (0 <= r < 2 ^ n /\ exists v1, EnsureBits n v = Ok (true, v1))
  | Panic p => p = IndexOutOfRange /\ dataPosition v < 0
  end /\
  match PeekByte v with
  | Ok (r, v') =>
      (r = -1 /\ v' = v /\ EnsureBits 8 v = Ok (false, v)) \/
      (0 <= r < 256 /\ EnsureBits 8 v = Ok (true, v'))
  | Panic p => p = IndexOutOfRange /\ dataPosition v < 0
  end.
Proof.
  intros Hn. split.
  - rewrite ReadBits_unfold by lia.
    destruct (EnsureBits_cases n v)
      as [(_ & E)|[(_ & _ & E)|[(_ & _ & E)|(_ & H & E)]]]; rewrite E.
    + right. split; [apply land_ones_range; lia|eauto].
    + left. auto.
    + right. split; [apply land_ones_range; lia|eauto].
    + auto.
  - rewrite PeekByte_unfold.
    destruct (EnsureBits_cases 8 v)
      as [(_ & E)|[(_ & _ & E)|[(_ & _ & E)|(_ & H & E)]]]; rewrite E.
    + right. split; [apply (land_ones_range _ 8); lia|reflexivity].
    + left. auto.
    + right. split; [apply (land_ones_range _ 8); lia|reflexivity].
    + auto.
Qed.

(** C6, at a count of 17 on a stream over three bytes. *)
Lemma ReadBits_above_maxBits_witness :
  maxBits < 17 /\
  ReadBits 17 (CreateBitStream [1; 2; 3]) =
  Panic (LogPanic "Maximum BitCount is 16").
Proof.
  assert (H : maxBits < 17) by (unfold maxBits; lia).
  split; [exact H|].
  exact (proj1 (ReadBits_above_maxBits_panics (CreateBitStream [1; 2; 3]) 17 H)).
Defined.

(** C9, at a fresh stream over the byte [0xAB] and a count of 3: the
    read succeeds, so its value lies in [0, 8). *)
Lemma ReadBits_PeekByte_value_range_witness :
  let v := CreateBitStream [0xAB] in
  0 < 3 <= 16 /\
  match ReadBits 3 v with
  | Ok (r, v') =>
      (r = -1 /\ v' = v /\ EnsureBits 3 v = Ok (false, v)) \/
      (0 <= r < 2 ^ 3 /\ exists v1, EnsureBits 3 v = Ok (true, v1))
  | Panic p => p = IndexOutOfRange /\ dataPosition v < 0
  end.
Proof.
  cbv zeta. assert (H : 0 < 3 <= 16) by lia.
  split; [exact H|].
  exact (proj1 (ReadBits_PeekByte_value_range (CreateBitStream [0xAB]) 3 H)).
Defined.

End BitFacts.

(** ** Writer to bit reader *)

Module RoundTrip.
Import StreamWriter BitReader GoIntFacts WriterFacts BitFacts.

(** [PushBits] of [n] bits on a fresh writer: the bits stay in the
    cache unless there are eight of them. *)
Lemma PushBits_fresh (n val : Z) :
  1 <= n <= 8 ->
  PushBits val n CreateStreamWriter =
  Ok (if n <? 8
      then {| StreamWriter.data := []; bitOffset := n;
              bitCache := val mod 2 ^ n |}
      else {| StreamWriter.data := [val mod 2 ^ n]; bitOffset := 0;
              bitCache := 0 |}).
Proof.
  intros Hn. unfold PushBits. rewrite push_loop_bit_seq.
  assert (Hinv : offset_inv CreateStreamWriter) by (unfold offset_inv; cbn; lia).
  rewrite (push_bit_seq_fill _ _ Hinv)
    by (rewrite val_bits_length; cbn [bitOffset CreateStreamWriter]; lia).
  rewrite val_bits_length, Z2Nat.id by lia.
  cbn [bitOffset bitCache StreamWriter.data CreateStreamWriter].
  rewrite Z.add_0_l.
  rewrite fill_value
    by (rewrite ?val_bits_length, ?Z2Nat.id; cbn; lia).
  rewrite val_bits_value, Z2Nat.id by lia.
  rewrite Z.pow_0_r, Z.mul_1_l, Z.add_0_l.
  destruct (Z.ltb_spec n 8); [reflexivity|].
  destruct (Z.eqb_spec n 0); [lia|reflexivity].
Qed.

(** [PushBits] of [n] bits on a fresh writer, then of the [8 - n] bits
    that complete the byte. *)
Lemma PushBits_padded (n val p : Z) :
  1 <= n <= 8 ->
  and_then (PushBits val n CreateStreamWriter) (PushBits p (8 - n)) =
  Ok {| StreamWriter.data :=
          [val mod 2 ^ n + 2 ^ n * (p mod 2 ^ (8 - n))];
        bitOffset := 0; bitCache := 0 |}.
Proof.
  intros Hn. rewrite PushBits_fresh by assumption.
  unfold and_then, PushBits. rewrite push_loop_bit_seq.
  assert (Hv := Z.mod_pos_bound val (2 ^ n) ltac:(apply Z.pow_pos_nonneg; lia)).
  destruct (Z.ltb_spec n 8) as [Hlt|Hge].
  - rewrite push_bit_seq_fill
      by (unfold offset_inv; rewrite ?val_bits_length;
          cbn [bitOffset]; rewrite ?Z2Nat.id; lia).
    rewrite val_bits_length, Z2Nat.id by lia.
    cbn [bitOffset bitCache StreamWriter.data].
    destruct (Z.ltb_spec (n + (8 - n)) 8); [lia|].
    destruct (Z.eqb_spec (8 - n) 0); [lia|].
    rewrite fill_value
      by (rewrite ?val_bits_length, ?Z2Nat.id; lia).
    rewrite val_bits_value, Z2Nat.id by lia. reflexivity.
  - assert (n = 8) by lia. subst n.
    change (8 - 8) with 0. change (Z.to_nat 0) with 0%nat.
    cbn [val_bits push_bit_seq].
    rewrite Z.pow_0_r, Z.mod_1_r, Z.mul_0_r, Z.add_0_r.
    reflexivity.
Qed.

(** [ReadBits] of [n <= 8] bits on a fresh stream over one byte returns
    the low [n] bits of the byte. *)
Lemma ReadBits_first_byte (n B : Z) :
  1 <= n <= 8 -> 0 <= B < 256 ->
  exists s, ReadBits n (CreateBitStream [B]) = Ok (B mod 2 ^ n, s).
Proof.
  intros Hn HB. rewrite ReadBits_unfold by lia.
  rewrite EnsureBits_pull by (cbn; lia).
  eexists. f_equal. f_equal.
  unfold pull. cbn [current CreateBitStream BitReader.data dataPosition
                      BitReader.bitCount Z.to_nat nth].
  rewrite int_small by (unfold is_int, minInt, maxInt; lia).
  unfold shlS, uint. rewrite uint64_small by (unfold is_uint64; lia).
  cbn [Z.leb Z.compare]. rewrite Z.shiftl_0_r.
  fold int64. fold int. rewrite int_small by (unfold is_int, minInt, maxInt; lia).
  cbn [Z.lor]. apply Z.land_ones. lia.
Qed.

Lemma ReadBits_empty (n : Z) :
  1 <= n <= 16 ->
  ReadBits n (CreateBitStream []) = Ok (-1, CreateBitStream []).
Proof.
  intros Hn. rewrite ReadBits_unfold by lia.
  rewrite EnsureBits_exhausted by (cbn; lia). reflexivity.
Qed.

(** C2, as the code has it: the bits of [PushBits(v, bitCount)] reach
    [GetBytes()] once the byte is complete.  With [bitCount = 8], or
    after a further [PushBits(p, 8 - bitCount)] of any [p], the byte is
    there and [ReadBits(bitCount)] over [GetBytes()] returns [v]; with
    [bitCount < 8] and no further push [GetBytes()] is empty and
    [ReadBits(bitCount)] returns -1. *)
Theorem PushBits_ReadBits_roundtrip_on_complete_byte (n val p : Z) :
  1 <= n <= 8 -> 0 <= val < 2 ^ n ->
  (exists w s,
     and_then (PushBits val n CreateStreamWriter) (PushBits p (8 - n)) = Ok w /\
     ReadBits n (CreateBitStream (GetBytes w)) = Ok (val, s)) /\
  (n = 8 ->
   exists w s,
     PushBits val n CreateStreamWriter = Ok w /\
     ReadBits n (CreateBitStream (GetBytes w)) = Ok (val, s)) /\
  (n < 8 ->
   exists w,
     PushBits val n CreateStreamWriter = Ok w /\
     GetBytes w = [] /\
     ReadBits n (CreateBitStream (GetBytes w)) = Ok (-1, CreateBitStream [])).
Proof.
  intros Hn Hval. split; [|split].
  - rewrite PushBits_padded by assumption.
    assert (Hp := Z.mod_pos_bound p (2 ^ (8 - n))
                    ltac:(apply Z.pow_pos_nonneg; lia)).
    assert (H256 : 2 ^ n * 2 ^ (8 - n) = 256)
      by (rewrite <- Z.pow_add_r by lia; replace (n + (8 - n)) with 8 by lia;
          reflexivity).
    rewrite (Z.mod_small val) by assumption.
    destruct (ReadBits_first_byte n (val + 2 ^ n * (p mod 2 ^ (8 - n))) Hn)
      as (s & Hs); [nia|].
    eexists. exists s. split; [reflexivity|].
    cbn [GetBytes StreamWriter.data]. rewrite Hs. f_equal. f_equal.
    rewrite Z.mul_comm, Z_mod_plus_full. now apply Z.mod_small.
  - intros ->. rewrite PushBits_fresh by lia. cbn [Z.ltb Z.compare Pos.compare Pos.compare_cont].
    rewrite (Z.mod_small val) by assumption.
    destruct (ReadBits_first_byte 8 val ltac:(lia) Hval) as (s & Hs).
    eexists. exists s. split; [reflexivity|].
    cbn [GetBytes StreamWriter.data]. rewrite Hs.
    now rewrite (Z.mod_small val) by assumption.
  - intros Hlt. rewrite PushBits_fresh by lia.
    destruct (Z.ltb_spec n 8); [|lia].
    eexists. split; [reflexivity|]. split; [reflexivity|].
    cbn [GetBytes StreamWriter.data]. apply ReadBits_empty. lia.
Qed.

(** C2, at 3 bits of value 5 completed by 5 bits of padding. *)
Lemma PushBits_ReadBits_roundtrip_witness :
  1 <= 3 <= 8 /\ 0 <= 5 < 2 ^ 3 /\
  exists w s,
    and_then (PushBits 5 3 CreateStreamWriter) (PushBits 0x1F (8 - 3)) = Ok w /\
    ReadBits 3 (CreateBitStream (GetBytes w)) = Ok (5, s).
Proof.
  assert (Hn : 1 <= 3 <= 8) by lia.
  assert (Hv : 0 <= 5 < 2 ^ 3) by lia.
  split; [exact Hn|]. split; [exact Hv|].
  exact (proj1 (PushBits_ReadBits_roundtrip_on_complete_byte 3 5 0x1F Hn Hv)).
Defined.

(** C2, counterexample: [PushBits(5, 3)] on a fresh writer leaves the
    three bits in the cache; [GetBytes()] is empty and [ReadBits(3)]
    over it returns -1, not 5. *)
Lemma PushBits_3_bits_not_read_back :
  let w := {| StreamWriter.data := []; bitOffset := 3; bitCache := 5 |} in
  PushBits 5 3 CreateStreamWriter = Ok w /\
  GetBytes w = [] /\
  ReadBits 3 (CreateBitStream (GetBytes w)) = Ok (-1, CreateBitStream []) /\
  ~ (exists w' s, PushBits 5 3 CreateStreamWriter = Ok w' /\
                  ReadBits 3 (CreateBitStream (GetBytes w')) = Ok (5, s)).
Proof.
  cbv zeta. split; [reflexivity|]. split; [reflexivity|].
  split; [reflexivity|].
  intros (w' & s & Hw & Hr).
  change (PushBits 5 3 CreateStreamWriter)
    with (Ok {| StreamWriter.data := []; bitOffset := 3; bitCache := 5 |}) in Hw.
  injection Hw as <-.
  change (ReadBits 3 (CreateBitStream
            (GetBytes {| StreamWriter.data := []; bitOffset := 3; bitCache := 5 |})))
    with (@Ok (Z * BitStream) (-1, CreateBitStream [])) in Hr.
  discriminate.
Qed.

End RoundTrip.

(** ** Little-endian values *)

Module LittleEndianFacts.
Import GoIntFacts.

Lemma le_value_app (bs bs' : list Z) :
  le_value (bs ++ bs') =
  le_value bs + 2 ^ (8 * Z.of_nat (length bs)) * le_value bs'.
Proof.
  induction bs as [|b bs IH]; cbn [le_value app length].
  - change (8 * Z.of_nat 0) with 0. rewrite Z.pow_0_r. lia.
  - rewrite IH, Nat2Z.inj_succ.
    replace (8 * Z.succ (Z.of_nat (length bs)))
      with (8 + 8 * Z.of_nat (length bs)) by lia.
    rewrite Z.pow_add_r by lia. change (2 ^ 8) with 256. ring.
Qed.

Lemma le_value_range (bs : list Z) :
  Forall is_byte bs -> 0 <= le_value bs < 2 ^ (8 * Z.of_nat (length bs)).
Proof.
  induction 1 as [|b bs Hb _ IH]; cbn [le_value length].
  - change (8 * Z.of_nat 0) with 0. rewrite Z.pow_0_r. lia.
  - rewrite Nat2Z.inj_succ.
    replace (8 * Z.succ (Z.of_nat (length bs)))
      with (8 + 8 * Z.of_nat (length bs)) by lia.
    rewrite Z.pow_add_r by lia. change (2 ^ 8) with 256.
    unfold is_byte in Hb. lia.
Qed.

(** Byte lists of one length that spell the same number are equal. *)
Lemma le_value_inj (bs bs' : list Z) :
  Forall is_byte bs -> Forall is_byte bs' -> length bs = length bs' ->
  le_value bs = le_value bs' -> bs = bs'.
Proof.
  intros H. revert bs'. induction H as [|b bs Hb _ IH]; intros bs' H' Hlen Hval.
  - destruct bs'; [reflexivity|discriminate].
  - destruct H' as [|b' bs' Hb' H']; [discriminate|].
    cbn [le_value length] in *. unfold is_byte in *.
    assert (b = b') by lia. subst b'.
    f_equal. apply IH; auto; lia.
Qed.

(** A value joined above [k] low bits by [lor] is added. *)
Lemma lor_shiftl_add (a b k : Z) :
  0 <= k -> 0 <= a < 2 ^ k -> Z.lor a (Z.shiftl b k) = a + b * 2 ^ k.
Proof.
  intros Hk Ha. rewrite <- Z.shiftl_mul_pow2 by assumption.
  apply Z.or_to_plus. apply Z.bits_inj'. intros i Hi.
  rewrite Z.land_spec, Z.bits_0.
  destruct (Z.lt_ge_cases i k) as [Hlt|Hge].
  - rewrite (Z.shiftl_spec_low b k i) by assumption. apply andb_false_r.
  - rewrite <- (Z.mod_small a (2 ^ k)) by assumption.
    rewrite Z.mod_pow2_bits_high by lia. reflexivity.
Qed.

End LittleEndianFacts.

(** ** streamReader: successful reads *)

Module ReaderReads.
Import StreamReader GoIntFacts ReaderFacts LittleEndianFacts.


Lemma window_length (v : streamReader) :
  wf v -> Position v <= Size v ->
  Z.of_nat (length (window v)) = remaining v.
Proof.
  intros Hwf Hle. unfold remaining, window, Position in *.
  rewrite (Size_length v Hwf) in *. rewrite length_skipn.
  destruct Hwf as [[Hp _] _]. lia.
Qed.

Lemma remaining_pos_in_range (v : streamReader) :
  wf v -> 0 < remaining v ->
  position v < Z.of_nat (length (data v)) /\
  remaining v = Z.of_nat (length (data v)) - position v.
Proof.
  intros Hwf Hr. unfold remaining, Position in *.
  rewrite (Size_length v Hwf) in *. lia.
Qed.

(** A read of [count > 0] bytes that the buffer can serve. *)
Lemma ReadBytes_in_range (v : streamReader) (count : Z) :
  wf v -> 0 < count <= remaining v ->
  ReadBytes count v =
  ((firstn (Z.to_nat count) (window v), None),
   with_position v (position v + count)).
Proof.
  intros Hwf Hc.
  destruct (remaining_pos_in_range v Hwf ltac:(lia)) as [Hlt Hrem].
  unfold ReadBytes.
  destruct (Z.leb_spec count 0); [lia|]. cbv zeta.
  rewrite (Size_length v Hwf).
  destruct Hwf as [[Hp0 Hp] Hlen]. unfold maxInt in *.
  rewrite (uint64_small count) by (unfold is_uint64; lia).
  rewrite uint64_small by (unfold is_uint64; lia).
  destruct (Z.leb_spec (Z.of_nat (length (data v))) (position v)); [lia|].
  destruct (Z.ltb_spec (Z.of_nat (length (data v))) (position v + count)); [lia|].
  cbn [orb]. unfold slice, window.
  now replace (position v + count - position v) with count by lia.
Qed.

(** X1: a [ReadBytes(count)] that the buffer can serve returns exactly
    the [count] bytes under the cursor, with no error, and moves the
    cursor past them. *)
Theorem ReadBytes_serves_window (v : streamReader) (count : Z) :
  wf v -> 0 < count <= remaining v ->
  exists bs v',
    ReadBytes count v = ((bs, None), v') /\
    bs = firstn (Z.to_nat count) (skipn (Z.to_nat (Position v)) (data v)) /\
    Z.of_nat (length bs) = count /\
    data v' = data v /\
    Position v' = Position v + count /\
    remaining v' = remaining v - count.
Proof.
  intros Hwf Hc. rewrite (ReadBytes_in_range v count Hwf Hc).
  destruct (remaining_pos_in_range v Hwf ltac:(lia)) as [Hlt Hrem].
  do 2 eexists. split; [reflexivity|]. split; [reflexivity|].
  split; [|split; [reflexivity|split; [reflexivity|]]].
  - rewrite length_firstn.
    assert (H := window_length v Hwf). unfold window, Position in *.
    rewrite (Size_length v Hwf) in H. lia.
  - unfold remaining, Size, Position in *. cbn [data position with_position].
    fold (Size v) in *. rewrite (Size_length v Hwf) in *. lia.
Qed.

(** X1, at a reader over four bytes with the cursor on the second. *)
Lemma ReadBytes_serves_window_witness :
  let v := SetPosition 1 (CreateStreamReader [10; 20; 30; 40]) in
  wf v /\ 0 < 2 <= remaining v /\
  exists bs v',
    ReadBytes 2 v = ((bs, None), v') /\
    bs = firstn (Z.to_nat 2) (skipn (Z.to_nat (Position v)) (data v)) /\
    Z.of_nat (length bs) = 2 /\
    data v' = data v /\
    Position v' = Position v + 2 /\
    remaining v' = remaining v - 2.
Proof.
  cbv zeta.
  assert (Hwf : wf (SetPosition 1 (CreateStreamReader [10; 20; 30; 40]))).
  { unfold wf, is_uint64, maxInt. cbn. lia. }
  assert (Hc : 0 < 2 <= remaining (SetPosition 1 (CreateStreamReader [10; 20; 30; 40]))).
  { vm_compute. split; [reflexivity|discriminate]. }
  split; [exact Hwf|]. split; [exact Hc|].
  exact (ReadBytes_serves_window _ 2 Hwf Hc).
Defined.

Lemma firstn_add_skipn (n m : nat) (l : list Z) :
  firstn (n + m) l = firstn n l ++ firstn m (skipn n l).
Proof.
  revert l. induction n as [|n IH]; intros l; [reflexivity|].
  destruct l as [|x l]; cbn [Nat.add firstn skipn app].
  - now rewrite firstn_nil.
  - now rewrite IH.
Qed.


Lemma wf_with_position (v : streamReader) (p : Z) :
  wf v -> is_uint64 p -> wf (with_position v p).
Proof. intros [_ H] Hp. split; assumption. Qed.

(** X2: two reads in a row return what one read of the two counts
    together returns, and leave the reader in the same state. *)
Theorem ReadBytes_twice_is_one (v : streamReader) (a b : Z) :
  wf v -> 0 < a -> 0 < b -> a + b <= remaining v ->
  exists x y v1 v2,
    ReadBytes a v = ((x, None), v1) /\
    ReadBytes b v1 = ((y, None), v2) /\
    ReadBytes (a + b) v = ((x ++ y, None), v2).
Proof.
  intros Hwf Ha Hb Hab.
  destruct (remaining_pos_in_range v Hwf ltac:(lia)) as [Hlt Hrem].
  assert (Hwf1 : wf (with_position v (position v + a))).
  { apply wf_with_position; [assumption|].
    destruct Hwf as [[Hp0 _] Hlen]. unfold is_uint64, maxInt in *. lia. }
  assert (Hrem1 : remaining (with_position v (position v + a)) = remaining v - a).
  { unfold remaining, Size, Position in *. cbn [data position with_position].
    fold (Size v) in *. rewrite (Size_length v Hwf) in *. lia. }
  rewrite (ReadBytes_in_range v a Hwf) by lia.
  rewrite (ReadBytes_in_range v (a + b) Hwf) by lia.
  do 4 eexists. split; [reflexivity|].
  rewrite (ReadBytes_in_range _ b Hwf1) by lia.
  split; [reflexivity|].
  unfold window, with_position. cbn [data position].
  destruct Hwf as [[Hp0 _] _].
  replace (Z.to_nat (position v + a))
    with (Z.to_nat a + Z.to_nat (position v))%nat by lia.
  rewrite <- skipn_skipn.
  replace (Z.to_nat (a + b)) with (Z.to_nat a + Z.to_nat b)%nat by lia.
  rewrite firstn_add_skipn.
  now replace (position v + (a + b)) with (position v + a + b) by lia.
Qed.

(** X2, at reads of 2 and 3 bytes over five. *)
Lemma ReadBytes_twice_is_one_witness :
  let v := CreateStreamReader [1; 2; 3; 4; 5] in
  wf v /\ 0 < 2 /\ 0 < 3 /\ 2 + 3 <= remaining v /\
  exists x y v1 v2,
    ReadBytes 2 v = ((x, None), v1) /\
    ReadBytes 3 v1 = ((y, None), v2) /\
    ReadBytes (2 + 3) v = ((x ++ y, None), v2).
Proof.
  cbv zeta.
  assert (Hwf : wf (CreateStreamReader [1; 2; 3; 4; 5])).
  { unfold wf, is_uint64, maxInt. cbn. lia. }
  assert (Hr : 2 + 3 <= remaining (CreateStreamReader [1; 2; 3; 4; 5])).
  { vm_compute. discriminate. }
  split; [exact Hwf|]. split; [lia|]. split; [lia|]. split; [exact Hr|].
  exact (ReadBytes_twice_is_one _ 2 3 Hwf ltac:(lia) ltac:(lia) Hr).
Defined.

End ReaderReads.

(** ** streamReader: single bytes, [Read] and skipping *)

Module ReaderStream.
Import StreamReader GoIntFacts ReaderFacts LittleEndianFacts ReaderReads.

Lemma window_cons (v : streamReader) :
  wf v -> 0 < remaining v ->
  window v = index (data v) (position v)
             :: window (with_position v (position v + 1)).
Proof.
  intros Hwf Hr.
  destruct (remaining_pos_in_range v Hwf Hr) as [Hlt _].
  destruct Hwf as [[Hp0 _] _].
  unfold window, index, with_position. cbn [data position].
  replace (Z.to_nat (position v + 1)) with (S (Z.to_nat (position v))) by lia.
  assert (Hn : (Z.to_nat (position v) < length (data v))%nat) by lia.
  revert Hn. generalize (Z.to_nat (position v)) as n. generalize (data v) as l.
  induction l as [|x l IH]; intros n Hn; cbn [length] in Hn; [lia|].
  destruct n as [|n]; [reflexivity|].
  cbn [skipn nth]. apply IH. lia.
Qed.

Lemma ReadByte_in_range (v : streamReader) :
  wf v -> 0 < remaining v ->
  ReadByte v =
  ((index (data v) (position v), None), with_position v (position v + 1)).
Proof.
  intros Hwf Hr.
  destruct (remaining_pos_in_range v Hwf Hr) as [Hlt _].
  unfold ReadByte. rewrite (Size_length v Hwf).
  destruct (Z.leb_spec (Z.of_nat (length (data v))) (position v)); [lia|].
  destruct Hwf as [[Hp0 _] Hlen]. unfold maxInt in *.
  now rewrite uint64_small by (unfold is_uint64; lia).
Qed.

(** X3: [ReadByte()] is [ReadBytes(1)]: it fails when that fails, and
    otherwise returns its one byte and leaves the same reader. *)
Theorem ReadByte_is_ReadBytes_1 (v : streamReader) :
  wf v ->
  ReadByte v =
  (let '((bs, err), v') := ReadBytes 1 v in ((hd 0 bs, err), v')).
Proof.
  intros Hwf. destruct (Z.lt_ge_cases 0 (remaining v)) as [Hr|Hr].
  - rewrite ReadByte_in_range, ReadBytes_in_range by (auto; lia).
    rewrite (window_cons v Hwf Hr). reflexivity.
  - rewrite ReadBytes_short by (auto; unfold maxInt; lia).
    apply ReadByte_at_end. unfold remaining in Hr. lia.
Qed.

(** X3, at a reader in mid-buffer. *)
Lemma ReadByte_is_ReadBytes_1_witness :
  let v := SetPosition 1 (CreateStreamReader [7; 8; 9]) in
  wf v /\
  ReadByte v = (let '((bs, err), v') := ReadBytes 1 v in ((hd 0 bs, err), v')).
Proof.
  cbv zeta.
  assert (Hwf : wf (SetPosition 1 (CreateStreamReader [7; 8; 9]))).
  { unfold wf, is_uint64, maxInt. cbn. lia. }
  split; [exact Hwf|]. exact (ReadByte_is_ReadBytes_1 _ Hwf).
Defined.




(** X5: [EOF()] tells whether the next read fails: it is true exactly
    when [ReadByte()] returns [io.EOF], and then every [ReadBytes] of a
    positive count returns [io.EOF] too, the reader unchanged. *)
Theorem EOF_iff_ReadByte_fails (v : streamReader) :
  (EOF v = true <-> ReadByte v = ((0, Some io_EOF), v)) /\
  (EOF v = true ->
   forall count, 0 < count -> ReadBytes count v = (([], Some io_EOF), v)).
Proof.
  unfold EOF, ReadByte, ReadBytes, Size. split; [split|].
  - intros ->. reflexivity.
  - destruct (uint64 (Z.of_nat (length (data v))) <=? position v);
      [reflexivity|discriminate].
  - intros -> count Hc. destruct (Z.leb_spec count 0); [lia|reflexivity].
Qed.

(** X6: within the buffer [SkipBytes(count)] leaves the reader where
    [ReadBytes(count)] leaves it, and [SkipBytes(-count)] after that
    read takes the reader back to where it was. *)
Theorem SkipBytes_forward_and_back (v : streamReader) (count : Z) :
  wf v -> 0 < count <= remaining v ->
  SkipBytes count v = snd (ReadBytes count v) /\
  SkipBytes (- count) (snd (ReadBytes count v)) = v.
Proof.
  intros Hwf Hc. rewrite (ReadBytes_in_range v count Hwf Hc). cbn [snd].
  destruct (remaining_pos_in_range v Hwf ltac:(lia)) as [Hlt Hrem].
  destruct Hwf as [[Hp0 Hp] Hlen]. unfold maxInt in *.
  unfold SkipBytes, with_position. cbn [data position].
  split.
  - rewrite (uint64_small count) by (unfold is_uint64; lia).
    now rewrite uint64_small by (unfold is_uint64; lia).
  - unfold uint64, wrapU.
    rewrite Zplus_mod_idemp_r.
    replace (position v + count + - count) with (position v) by lia.
    rewrite Z.mod_small by lia. now destruct v.
Qed.

(** X6, at a skip of two bytes with two left. *)
Lemma SkipBytes_forward_and_back_witness :
  let v := SetPosition 1 (CreateStreamReader [7; 8; 9]) in
  wf v /\ 0 < 2 <= remaining v /\
  SkipBytes 2 v = snd (ReadBytes 2 v) /\
  SkipBytes (- 2) (snd (ReadBytes 2 v)) = v.
Proof.
  cbv zeta.
  assert (Hwf : wf (SetPosition 1 (CreateStreamReader [7; 8; 9]))).
  { unfold wf, is_uint64, maxInt. cbn. lia. }
  assert (Hc : 0 < 2 <= remaining (SetPosition 1 (CreateStreamReader [7; 8; 9]))).
  { vm_compute. split; [reflexivity|discriminate]. }
  split; [exact Hwf|]. split; [exact Hc|].
  exact (SkipBytes_forward_and_back _ 2 Hwf Hc).
Defined.

End ReaderStream.

(** ** Fixed-width integers, little-endian *)

Module FixedWidth.
Import StreamReader GoIntFacts ReaderFacts LittleEndianFacts ReaderReads.

Lemma lor_mul_add (a b k : Z) :
  0 <= k -> 0 <= a < 2 ^ k -> Z.lor a (b * 2 ^ k) = a + b * 2 ^ k.
Proof.
  intros Hk Ha. rewrite <- Z.shiftl_mul_pow2 by assumption.
  rewrite lor_shiftl_add by assumption. now rewrite Z.shiftl_mul_pow2.
Qed.

Lemma le_combine16 (b0 b1 : Z) :
  is_byte b0 -> is_byte b1 ->
  Z.lor (uint16 b0) (shlU 16 (uint16 b1) 8) = le_value [b0; b1].
Proof.
  unfold is_byte, shlU, uint16, wrapU. intros H0 H1.
  rewrite !Z.shiftl_mul_pow2 by lia.
  rewrite (Z.mod_small b0), (Z.mod_small b1) by lia.
  rewrite (Z.mod_small (b1 * 2 ^ 8)) by lia.
  rewrite (lor_mul_add b0 b1 8) by lia.
  cbn [le_value]. lia.
Qed.

Lemma le_combine32 (b0 b1 b2 b3 : Z) :
  is_byte b0 -> is_byte b1 -> is_byte b2 -> is_byte b3 ->
  Z.lor (Z.lor (Z.lor (uint32 b0) (shlU 32 (uint32 b1) 8))
               (shlU 32 (uint32 b2) 16))
        (shlU 32 (uint32 b3) 24) = le_value [b0; b1; b2; b3].
Proof.
  unfold is_byte, shlU, uint32, wrapU. intros H0 H1 H2 H3.
  rewrite !Z.shiftl_mul_pow2 by lia.
  rewrite (Z.mod_small b0), (Z.mod_small b1), (Z.mod_small b2),
    (Z.mod_small b3) by lia.
  rewrite (Z.mod_small (b1 * 2 ^ 8)), (Z.mod_small (b2 * 2 ^ 16)),
    (Z.mod_small (b3 * 2 ^ 24)) by lia.
  rewrite (lor_mul_add b0 b1 8) by lia.
  rewrite (lor_mul_add _ b2 16) by lia.
  rewrite (lor_mul_add _ b3 24) by lia.
  cbn [le_value]. lia.
Qed.

Lemma le_combine64 (b0 b1 b2 b3 b4 b5 b6 b7 : Z) :
  is_byte b0 -> is_byte b1 -> is_byte b2 -> is_byte b3 ->
  is_byte b4 -> is_byte b5 -> is_byte b6 -> is_byte b7 ->
  Z.lor (Z.lor (Z.lor (Z.lor (Z.lor (Z.lor (Z.lor
    (uint64 b0)
    (shlU 64 (uint64 b1) 8))
    (shlU 64 (uint64 b2) 16))
    (shlU 64 (uint64 b3) 24))
    (shlU 64 (uint64 b4) 32))
    (shlU 64 (uint64 b5) 40))
    (shlU 64 (uint64 b6) 48))
    (shlU 64 (uint64 b7) 56) = le_value [b0; b1; b2; b3; b4; b5; b6; b7].
Proof.
  unfold is_byte, shlU, uint64, wrapU. intros H0 H1 H2 H3 H4 H5 H6 H7.
  rewrite !Z.shiftl_mul_pow2 by lia.
  rewrite (Z.mod_small b0), (Z.mod_small b1), (Z.mod_small b2),
    (Z.mod_small b3), (Z.mod_small b4), (Z.mod_small b5),
    (Z.mod_small b6), (Z.mod_small b7) by lia.
  rewrite (Z.mod_small (b1 * 2 ^ 8)), (Z.mod_small (b2 * 2 ^ 16)),
    (Z.mod_small (b3 * 2 ^ 24)), (Z.mod_small (b4 * 2 ^ 32)),
    (Z.mod_small (b5 * 2 ^ 40)), (Z.mod_small (b6 * 2 ^ 48)),
    (Z.mod_small (b7 * 2 ^ 56)) by lia.
  rewrite (lor_mul_add b0 b1 8) by lia.
  rewrite (lor_mul_add _ b2 16) by lia.
  rewrite (lor_mul_add _ b3 24) by lia.
  rewrite (lor_mul_add _ b4 32) by lia.
  rewrite (lor_mul_add _ b5 40) by lia.
  rewrite (lor_mul_add _ b6 48) by lia.
  rewrite (lor_mul_add _ b7 56) by lia.
  cbn [le_value]. lia.
Qed.

Lemma Forall_firstn (n : nat) (l : list Z) (P : Z -> Prop) :
  Forall P l -> Forall P (firstn n l).
Proof.
  intros H. revert n. induction H as [|x l Hx _ IH]; intros [|n];
    cbn [firstn]; auto.
Qed.

Lemma Forall_skipn (n : nat) (l : list Z) (P : Z -> Prop) :
  Forall P l -> Forall P (skipn n l).
Proof.
  intros H. revert n. induction H as [|x l Hx H IH]; intros [|n];
    cbn [skipn]; auto.
Qed.

Lemma window_bytes (v : streamReader) (n : nat) :
  bytes_ok v -> Forall is_byte (firstn n (window v)).
Proof. intros H. apply Forall_firstn, Forall_skipn, H. Qed.

Lemma ReadUInt16_le (v : streamReader) :
  wf v -> 2 <= remaining v -> Forall is_byte (firstn 2 (window v)) ->
  ReadUInt16 v =
  ((le_value (firstn 2 (window v)), None), with_position v (position v + 2)).
Proof.
  intros Hwf Hr Hb. unfold ReadUInt16, bytesPerint16.
  rewrite ReadBytes_in_range by (auto; lia).
  assert (Hl := window_length v Hwf ltac:(unfold remaining in Hr; lia)).
  change (Z.to_nat 2) with 2%nat in *.
  destruct (window v) as [|b0 [|b1 l]]; cbn [length] in Hl; try lia.
  cbn [firstn] in *. unfold index. cbn [Z.to_nat Pos.to_nat Pos.iter_op nth Nat.add].
  inversion_clear Hb as [|? ? H0 Hb']. inversion_clear Hb' as [|? ? H1 _].
  now rewrite le_combine16.
Qed.

Lemma ReadUInt32_le (v : streamReader) :
  wf v -> 4 <= remaining v -> Forall is_byte (firstn 4 (window v)) ->
  ReadUInt32 v =
  ((le_value (firstn 4 (window v)), None), with_position v (position v + 4)).
Proof.
  intros Hwf Hr Hb. unfold ReadUInt32, bytesPerint32.
  rewrite ReadBytes_in_range by (auto; lia).
  assert (Hl := window_length v Hwf ltac:(unfold remaining in Hr; lia)).
  change (Z.to_nat 4) with 4%nat in *.
  destruct (window v) as [|b0 [|b1 [|b2 [|b3 l]]]]; cbn [length] in Hl; try lia.
  cbn [firstn] in *. unfold index. cbn [Z.to_nat Pos.to_nat Pos.iter_op nth Nat.add].
  repeat match goal with
         | H : Forall _ (_ :: _) |- _ => inversion_clear H
         end.
  now rewrite le_combine32.
Qed.

Lemma ReadUInt64_le (v : streamReader) :
  wf v -> 8 <= remaining v -> Forall is_byte (firstn 8 (window v)) ->
  ReadUInt64 v =
  ((le_value (firstn 8 (window v)), None), with_position v (position v + 8)).
Proof.
  intros Hwf Hr Hb. unfold ReadUInt64, bytesPerint64.
  rewrite ReadBytes_in_range by (auto; lia).
  assert (Hl := window_length v Hwf ltac:(unfold remaining in Hr; lia)).
  change (Z.to_nat 8) with 8%nat in *.
  destruct (window v) as [|b0 [|b1 [|b2 [|b3 [|b4 [|b5 [|b6 [|b7 l]]]]]]]];
    cbn [length] in Hl; try lia.
  cbn [firstn] in *. unfold index. cbn [Z.to_nat Pos.to_nat Pos.iter_op nth Nat.add].
  repeat match goal with
         | H : Forall _ (_ :: _) |- _ => inversion_clear H
         end.
  now rewrite le_combine64.
Qed.

(** X7: on a reader over bytes with at least 2, 4 or 8 of them left,
    the 16-, 32- and 64-bit reads succeed, return the number the next
    2, 4 or 8 bytes spell least significant byte first (the signed
    reads, its two's complement reading), and move the cursor by the
    width. *)
Theorem fixed_width_reads_little_endian (v : streamReader) :
  wf v -> bytes_ok v ->
  let next n := firstn n (skipn (Z.to_nat (Position v)) (data v)) in
  (2 <= remaining v ->
   ReadUInt16 v = ((le_value (next 2%nat), None), SetPosition (Position v + 2) v) /\
   ReadInt16 v =
     ((int16 (le_value (next 2%nat)), None), SetPosition (Position v + 2) v)) /\
  (4 <= remaining v ->
   ReadUInt32 v = ((le_value (next 4%nat), None), SetPosition (Position v + 4) v) /\
   ReadInt32 v =
     ((int32 (le_value (next 4%nat)), None), SetPosition (Position v + 4) v)) /\
  (8 <= remaining v ->
   ReadUInt64 v = ((le_value (next 8%nat), None), SetPosition (Position v + 8) v) /\
   ReadInt64 v =
     ((int64 (le_value (next 8%nat)), None), SetPosition (Position v + 8) v)).
Proof.
  intros Hwf Hb. cbv zeta. fold (window v).
  unfold ReadInt16, ReadInt32, ReadInt64, SetPosition, Position.
  split; [|split]; intros Hr; split;
    rewrite ?ReadUInt16_le, ?ReadUInt32_le, ?ReadUInt64_le
      by auto using window_bytes;
    reflexivity.
Qed.

(** X7, at a reader over five bytes: a 16-bit word and a negative 32-bit one. *)
Lemma fixed_width_reads_witness :
  let v := SetPosition 1 (CreateStreamReader [9; 0x34; 0x12; 0xFF; 0xFF]) in
  wf v /\ bytes_ok v /\
  ReadUInt16 v = ((0x1234, None), SetPosition 3 v) /\
  ReadInt32 v = ((-60876, None), SetPosition 5 v).
Proof.
  cbv zeta.
  assert (Hwf : wf (SetPosition 1 (CreateStreamReader [9; 0x34; 0x12; 0xFF; 0xFF]))).
  { unfold wf, is_uint64, maxInt. cbn. lia. }
  assert (Hb : bytes_ok (SetPosition 1 (CreateStreamReader [9; 0x34; 0x12; 0xFF; 0xFF]))).
  { unfold bytes_ok, is_byte. cbn. repeat constructor; lia. }
  destruct (fixed_width_reads_little_endian _ Hwf Hb) as (H16 & H32 & _).
  split; [exact Hwf|]. split; [exact Hb|].
  split; [apply H16; vm_compute; discriminate|].
  apply H32; vm_compute; discriminate.
Defined.

End FixedWidth.

(** ** Fixed-width integers: writer to reader *)

Module FixedWidthRoundTrip.
Import GoIntFacts ReaderFacts LittleEndianFacts ReaderReads FixedWidth WriterFacts.
Import StreamWriter.

Lemma le_bytes_from (val : Z) (n k : nat) :
  le_value (map (fun j => uint8 (Z.shiftr val (8 * Z.of_nat j))) (seq k n)) =
  (val / 2 ^ (8 * Z.of_nat k)) mod 2 ^ (8 * Z.of_nat n).
Proof.
  revert k. induction n as [|n IH]; intros k; cbn [seq map le_value].
  - change (8 * Z.of_nat 0) with 0. now rewrite Z.pow_0_r, Z.mod_1_r.
  - rewrite IH. unfold uint8, wrapU. change (2 ^ 8) with 256.
    rewrite Z.shiftr_div_pow2 by lia.
    rewrite !Nat2Z.inj_succ.
    replace (8 * Z.succ (Z.of_nat k)) with (8 * Z.of_nat k + 8) by lia.
    replace (8 * Z.succ (Z.of_nat n)) with (8 + 8 * Z.of_nat n) by lia.
    rewrite !Z.pow_add_r by lia. change (2 ^ 8) with 256.
    rewrite <- Z.div_div by (try apply Z.pow_pos_nonneg; lia).
    rewrite (Z.rem_mul_r _ 256) by (try apply Z.pow_pos_nonneg; lia).
    reflexivity.
Qed.

(** The bytes a byte-level push writes spell the value pushed. *)
Lemma le_value_le_bytes (n : nat) (val : Z) :
  le_value (le_bytes n val) = val mod 2 ^ (8 * Z.of_nat n).
Proof.
  unfold le_bytes. rewrite le_bytes_from.
  change (8 * Z.of_nat 0) with 0. now rewrite Z.pow_0_r, Z.div_1_r.
Qed.

Lemma le_bytes_are_bytes (n : nat) (val : Z) : Forall is_byte (le_bytes n val).
Proof.
  unfold le_bytes. apply Forall_forall. intros x Hx.
  apply in_map_iff in Hx. destruct Hx as (j & <- & _).
  unfold is_byte, uint8, wrapU. change (2 ^ 8) with 256.
  apply Z.mod_pos_bound. lia.
Qed.

Lemma le_bytes_length (n : nat) (val : Z) : length (le_bytes n val) = n.
Proof. unfold le_bytes. now rewrite length_map, length_seq. Qed.

(** A reader over [d ++ bs] with the cursor after [d]. *)
Lemma reader_after_prefix (d bs : list Z) :
  Z.of_nat (length d) + Z.of_nat (length bs) <= maxInt ->
  let r := StreamReader.SetPosition (Z.of_nat (length d))
             (StreamReader.CreateStreamReader (d ++ bs)) in
  StreamReader.wf r /\ StreamReader.window r = bs /\
  StreamReader.remaining r = Z.of_nat (length bs).
Proof.
  intros Hlen. cbv zeta.
  unfold StreamReader.wf, StreamReader.window, StreamReader.remaining,
    StreamReader.Size, StreamReader.Position, StreamReader.SetPosition,
    StreamReader.with_position, StreamReader.CreateStreamReader.
  cbn [StreamReader.data StreamReader.position].
  rewrite length_app, Nat2Z.inj_add. unfold maxInt in *.
  rewrite uint64_small by (unfold is_uint64; lia).
  split; [unfold is_uint64; lia|]. split; [|lia].
  rewrite Nat2Z.id, skipn_app, skipn_all, Nat.sub_diag. reflexivity.
Qed.

(** What a fixed-width read finds at a field that follows [d] and is
    followed by [suffix]. *)
Lemma read_appended (d suffix : list Z) (n : nat) (val : Z) :
  Z.of_nat (length d) + Z.of_nat n + Z.of_nat (length suffix) <= maxInt ->
  let r := StreamReader.SetPosition (Z.of_nat (length d))
             (StreamReader.CreateStreamReader (d ++ le_bytes n val ++ suffix)) in
  StreamReader.wf r /\
  StreamReader.remaining r = Z.of_nat n + Z.of_nat (length suffix) /\
  Forall is_byte (firstn n (StreamReader.window r)) /\
  le_value (firstn n (StreamReader.window r)) = val mod 2 ^ (8 * Z.of_nat n) /\
  StreamReader.EOF
    (StreamReader.with_position r (StreamReader.position r + Z.of_nat n)) =
  match suffix with [] => true | _ :: _ => false end.
Proof.
  intros Hlen.
  destruct (reader_after_prefix d (le_bytes n val ++ suffix))
    as (Hwf & Hwin & Hrem);
    [rewrite length_app, le_bytes_length; lia|].
  assert (Hf : firstn n (le_bytes n val ++ suffix) = le_bytes n val).
  { rewrite firstn_app, le_bytes_length, Nat.sub_diag, firstn_O, app_nil_r.
    apply firstn_all2. rewrite le_bytes_length. lia. }
  cbv zeta. rewrite Hwin, Hrem, length_app, le_bytes_length, Nat2Z.inj_add, !Hf.
  split; [exact Hwf|]. split; [reflexivity|].
  split; [apply le_bytes_are_bytes|]. split; [apply le_value_le_bytes|].
  unfold StreamReader.EOF, StreamReader.SetPosition, StreamReader.with_position,
    StreamReader.CreateStreamReader.
  cbn [StreamReader.data StreamReader.position].
  rewrite !length_app, !le_bytes_length, !Nat2Z.inj_add. unfold maxInt in *.
  rewrite uint64_small by (unfold is_uint64; lia).
  destruct suffix as [|x suffix]; cbn [length].
  - apply Z.leb_le. lia.
  - apply Z.leb_gt. lia.
Qed.

Lemma GetBytes_byte_op (o : byte_op) (w : streamWriter) :
  GetBytes (run_byte_op o w) = GetBytes w ++ bytes_of o.
Proof. now rewrite run_byte_op_app. Qed.

Lemma wrapS_wrapU (k val : Z) :
  0 < k -> - 2 ^ (k - 1) <= val < 2 ^ (k - 1) -> wrapS k (wrapU k val) = val.
Proof.
  intros Hk Hv. unfold wrapS, wrapU.
  assert (Hp : 2 ^ k = 2 * 2 ^ (k - 1)).
  { rewrite <- Z.pow_succ_r by lia. f_equal. lia. }
  rewrite Zplus_mod_idemp_l, Z.mod_small; lia.
Qed.

(** X8: an unsigned field written with [PushUint16], [PushUint32] or
    [PushUint64] to any writer, whatever bits it has pending, is read
    back by the read of the same width from a reader placed where the
    writer's bytes ended, whatever bytes follow the field; the cursor
    ends after the field, at end of data exactly when nothing
    follows. *)
Theorem unsigned_push_read_roundtrip (w : streamWriter) (val : Z)
    (suffix : list Z) :
  Z.of_nat (length (GetBytes w)) + 8 + Z.of_nat (length suffix) <= maxInt ->
  let at_field bytes :=
    StreamReader.SetPosition (Z.of_nat (length (GetBytes w)))
      (StreamReader.CreateStreamReader (bytes ++ suffix)) in
  let past n r :=
    StreamReader.SetPosition (Z.of_nat (length (GetBytes w)) + n) r in
  let at_end := match suffix with [] => true | _ :: _ => false end in
  (0 <= val < 2 ^ 16 ->
   let r := at_field (GetBytes (PushUint16 val w)) in
   StreamReader.ReadUInt16 r = ((val, None), past 2 r) /\
   StreamReader.EOF (past 2 r) = at_end) /\
  (0 <= val < 2 ^ 32 ->
   let r := at_field (GetBytes (PushUint32 val w)) in
   StreamReader.ReadUInt32 r = ((val, None), past 4 r) /\
   StreamReader.EOF (past 4 r) = at_end) /\
  (0 <= val < 2 ^ 64 ->
   let r := at_field (GetBytes (PushUint64 val w)) in
   StreamReader.ReadUInt64 r = ((val, None), past 8 r) /\
   StreamReader.EOF (past 8 r) = at_end).
Proof.
  intros Hlen. cbv zeta. unfold maxInt in Hlen.
  split; [|split]; intros Hval.
  - change (PushUint16 val w) with (run_byte_op (OpPushUint16 val) w).
    rewrite GetBytes_byte_op, <- app_assoc. cbn [bytes_of].
    destruct (read_appended (GetBytes w) suffix 2 val)
      as (Hwf & Hrem & Hb & Hv & Heof); [unfold maxInt; cbn; lia|].
    rewrite ReadUInt16_le by (auto; rewrite Hrem; lia).
    rewrite Hv, Z.mod_small by (cbn; lia). split; [reflexivity|exact Heof].
  - change (PushUint32 val w) with (run_byte_op (OpPushUint32 val) w).
    rewrite GetBytes_byte_op, <- app_assoc. cbn [bytes_of].
    destruct (read_appended (GetBytes w) suffix 4 val)
      as (Hwf & Hrem & Hb & Hv & Heof); [unfold maxInt; cbn; lia|].
    rewrite ReadUInt32_le by (auto; rewrite Hrem; lia).
    rewrite Hv, Z.mod_small by (cbn; lia). split; [reflexivity|exact Heof].
  - change (PushUint64 val w) with (run_byte_op (OpPushUint64 val) w).
    rewrite GetBytes_byte_op, <- app_assoc. cbn [bytes_of].
    destruct (read_appended (GetBytes w) suffix 8 val)
      as (Hwf & Hrem & Hb & Hv & Heof); [unfold maxInt; cbn; lia|].
    rewrite ReadUInt64_le by (auto; rewrite Hrem; lia).
    rewrite Hv, Z.mod_small by (cbn; lia). split; [reflexivity|exact Heof].
Qed.

(** X8, at a writer with two bytes and three pending bits, one byte following the field. *)
Lemma unsigned_push_read_witness :
  let w := {| data := [0xAA; 0xBB]; bitOffset := 3; bitCache := 5 |} in
  Z.of_nat (length (GetBytes w)) + 8 + Z.of_nat (length [0x11]) <= maxInt /\
  0 <= 0xBEEF < 2 ^ 16 /\
  StreamReader.ReadUInt16
    (StreamReader.SetPosition 2
       (StreamReader.CreateStreamReader
          (GetBytes (PushUint16 0xBEEF w) ++ [0x11]))) =
  ((0xBEEF, None),
   StreamReader.SetPosition 4
     (StreamReader.CreateStreamReader [0xAA; 0xBB; 0xEF; 0xBE; 0x11])).
Proof.
  cbv zeta.
  assert (Hlen : Z.of_nat (length (GetBytes
            {| data := [0xAA; 0xBB]; bitOffset := 3; bitCache := 5 |})) + 8
            + Z.of_nat (length [0x11])
          <= maxInt) by (unfold maxInt; cbn; lia).
  assert (Hv : 0 <= 0xBEEF < 2 ^ 16) by lia.
  split; [exact Hlen|]. split; [exact Hv|].
  exact (proj1 (proj1 (unsigned_push_read_roundtrip _ 0xBEEF [0x11] Hlen) Hv)).
Defined.

(** X9: a signed field written with [PushInt16], [PushInt32] or
    [PushInt64] is read back, sign included, by the signed read of the
    same width, whatever bytes precede and follow it. *)
Theorem signed_push_read_roundtrip (w : streamWriter) (val : Z)
    (suffix : list Z) :
  Z.of_nat (length (GetBytes w)) + 8 + Z.of_nat (length suffix) <= maxInt ->
  let at_field bytes :=
    StreamReader.SetPosition (Z.of_nat (length (GetBytes w)))
      (StreamReader.CreateStreamReader (bytes ++ suffix)) in
  let past n r :=
    StreamReader.SetPosition (Z.of_nat (length (GetBytes w)) + n) r in
  (- 2 ^ 15 <= val < 2 ^ 15 ->
   let r := at_field (GetBytes (PushInt16 val w)) in
   StreamReader.ReadInt16 r = ((val, None), past 2 r)) /\
  (- 2 ^ 31 <= val < 2 ^ 31 ->
   let r := at_field (GetBytes (PushInt32 val w)) in
   StreamReader.ReadInt32 r = ((val, None), past 4 r)) /\
  (- 2 ^ 63 <= val < 2 ^ 63 ->
   let r := at_field (GetBytes (PushInt64 val w)) in
   StreamReader.ReadInt64 r = ((val, None), past 8 r)).
Proof.
  intros Hlen. cbv zeta. unfold maxInt in Hlen.
  split; [|split]; intros Hval.
  - change (PushInt16 val w) with (run_byte_op (OpPushInt16 val) w).
    rewrite GetBytes_byte_op, <- app_assoc. cbn [bytes_of].
    destruct (read_appended (GetBytes w) suffix 2 (uint16 val))
      as (Hwf & Hrem & Hb & Hv & _); [unfold maxInt; cbn; lia|].
    unfold StreamReader.ReadInt16.
    rewrite ReadUInt16_le by (auto; rewrite Hrem; lia).
    rewrite Hv. change (8 * Z.of_nat 2) with 16.
    unfold uint16 at 1, wrapU at 1. rewrite Z.mod_mod by lia.
    unfold int16. fold (wrapU 16 val). now rewrite wrapS_wrapU by (cbn; lia).
  - change (PushInt32 val w) with (run_byte_op (OpPushInt32 val) w).
    rewrite GetBytes_byte_op, <- app_assoc. cbn [bytes_of].
    destruct (read_appended (GetBytes w) suffix 4 (uint32 val))
      as (Hwf & Hrem & Hb & Hv & _); [unfold maxInt; cbn; lia|].
    unfold StreamReader.ReadInt32.
    rewrite ReadUInt32_le by (auto; rewrite Hrem; lia).
    rewrite Hv. change (8 * Z.of_nat 4) with 32.
    unfold uint32 at 1, wrapU at 1. rewrite Z.mod_mod by lia.
    unfold int32. fold (wrapU 32 val). now rewrite wrapS_wrapU by (cbn; lia).
  - change (PushInt64 val w) with (run_byte_op (OpPushInt64 val) w).
    rewrite GetBytes_byte_op, <- app_assoc. cbn [bytes_of].
    destruct (read_appended (GetBytes w) suffix 8 (uint64 val))
      as (Hwf & Hrem & Hb & Hv & _); [unfold maxInt; cbn; lia|].
    unfold StreamReader.ReadInt64.
    rewrite ReadUInt64_le by (auto; rewrite Hrem; lia).
    rewrite Hv. change (8 * Z.of_nat 8) with 64.
    unfold uint64 at 1, wrapU at 1. rewrite Z.mod_mod by lia.
    unfold int64. fold (wrapU 64 val). now rewrite wrapS_wrapU by (cbn; lia).
Qed.

(** X9, at -2 on a fresh writer, two bytes following. *)
Lemma signed_push_read_witness :
  Z.of_nat (length (GetBytes CreateStreamWriter)) + 8
    + Z.of_nat (length [0x11; 0x22]) <= maxInt /\
  - 2 ^ 15 <= -2 < 2 ^ 15 /\
  StreamReader.ReadInt16
    (StreamReader.SetPosition 0
       (StreamReader.CreateStreamReader
          (GetBytes (PushInt16 (-2) CreateStreamWriter) ++ [0x11; 0x22]))) =
  ((-2, None),
   StreamReader.SetPosition 2
     (StreamReader.CreateStreamReader [0xFE; 0xFF; 0x11; 0x22])).
Proof.
  assert (Hlen : Z.of_nat (length (GetBytes CreateStreamWriter)) + 8
                 + Z.of_nat (length [0x11; 0x22]) <= maxInt)
    by (unfold maxInt; cbn; lia).
  assert (Hv : - 2 ^ 15 <= -2 < 2 ^ 15) by lia.
  split; [exact Hlen|]. split; [exact Hv|].
  exact (proj1 (signed_push_read_roundtrip _ (-2) [0x11; 0x22] Hlen) Hv).
Defined.

End FixedWidthRoundTrip.

(** ** streamWriter: the bit stream *)

Module WriterBits.
Import GoIntFacts LittleEndianFacts WriterFacts FixedWidthRoundTrip.
Import StreamWriter.

(** What a run of single-bit pushes appends: whole bytes, and a cache
    which together spell the old cache followed by the bits pushed. *)
Lemma push_bit_seq_appends (bs : list bool) (v : streamWriter) :
  offset_inv v -> cache_inv v ->
  exists new v',
    push_bit_seq bs v = Ok v' /\
    data v' = data v ++ new /\
    Forall is_byte new /\
    offset_inv v' /\ cache_inv v' /\
    8 * Z.of_nat (length new) + bitOffset v' =
      bitOffset v + Z.of_nat (length bs) /\
    le_value new + 2 ^ (8 * Z.of_nat (length new)) * bitCache v' =
      bitCache v + 2 ^ bitOffset v * bits_value bs.
Proof.
  revert v. induction bs as [|b bs IH]; intros v Ho Hc.
  - exists [], v. cbn [push_bit_seq length le_value bits_value].
    rewrite app_nil_r. change (8 * Z.of_nat 0) with 0. rewrite Z.pow_0_r.
    repeat split; auto; try apply Ho; try apply Hc; lia.
  - cbn [push_bit_seq]. rewrite (PushBit_step b v Ho).
    assert (Hf : fill [b] (bitCache v) (bitOffset v) =
                 bitCache v + 2 ^ bitOffset v * Z.b2z b).
    { unfold offset_inv, cache_inv in *.
      rewrite fill_value by (cbn [length]; lia). cbn [bits_value]. ring. }
    rewrite Hf. unfold offset_inv, cache_inv in Ho, Hc.
    assert (Hb : 0 <= Z.b2z b <= 1) by (destruct b; cbn; lia).
    assert (Hp : 0 < 2 ^ bitOffset v) by (apply Z.pow_pos_nonneg; lia).
    cbn [length bits_value]. rewrite Nat2Z.inj_succ.
    destruct (Z.eqb_spec (bitOffset v) 7) as [E|E].
    + destruct (IH {| data := data v ++ [bitCache v + 2 ^ bitOffset v * Z.b2z b];
                      bitOffset := 0; bitCache := 0 |})
        as (new & v' & Hrun & Hd & Hn & Ho' & Hc' & Hbits & Hval);
        [unfold offset_inv; cbn; lia|unfold cache_inv; cbn; lia|].
      cbn [data bitOffset bitCache] in *.
      exists ((bitCache v + 2 ^ bitOffset v * Z.b2z b) :: new), v'.
      rewrite E in *. change (2 ^ 7) with 128 in *.
      split; [exact Hrun|]. split; [rewrite Hd, <- app_assoc; reflexivity|].
      split; [constructor; [unfold is_byte; lia|exact Hn]|].
      split; [exact Ho'|]. split; [exact Hc'|].
      cbn [length le_value]. rewrite Nat2Z.inj_succ.
      replace (8 * Z.succ (Z.of_nat (length new)))
        with (8 + 8 * Z.of_nat (length new)) by lia.
      rewrite Z.pow_add_r by lia. change (2 ^ 8) with 256.
      rewrite Z.pow_0_r in Hval. split; [lia|]. nia.
    + destruct (IH {| data := data v; bitOffset := bitOffset v + 1;
                      bitCache := bitCache v + 2 ^ bitOffset v * Z.b2z b |})
        as (new & v' & Hrun & Hd & Hn & Ho' & Hc' & Hbits & Hval).
      * unfold offset_inv. cbn. lia.
      * unfold cache_inv. cbn [bitOffset bitCache].
        rewrite Z.pow_add_r, Z.pow_1_r by lia. nia.
      * cbn [data bitOffset bitCache] in *.
        exists new, v'. rewrite Z.pow_add_r, Z.pow_1_r in Hval by lia.
        repeat split; auto; try apply Ho'; try apply Hc'; lia.
Qed.

(** The same, for the bit stream as a whole. *)
Lemma appended_stream_value (v v' : streamWriter) (new : list Z) (x k : Z) :
  0 <= bitOffset v ->
  data v' = data v ++ new ->
  8 * Z.of_nat (length new) + bitOffset v' = bitOffset v + k ->
  le_value new + 2 ^ (8 * Z.of_nat (length new)) * bitCache v' =
    bitCache v + 2 ^ bitOffset v * x ->
  stream_bits v' = stream_bits v + k /\
  stream_value v' = stream_value v + 2 ^ stream_bits v * x.
Proof.
  intros Ho Hd Hbits Hval. unfold stream_bits, stream_value.
  rewrite Hd, length_app, Nat2Z.inj_add, le_value_app.
  split; [lia|].
  rewrite Z.mul_add_distr_l, !Z.pow_add_r by lia.
  rewrite <- !Z.mul_assoc, <- Z.add_assoc, <- Z.mul_add_distr_l, Hval. ring.
Qed.

(** X10: from a writer whose offset is in [0, 8) and whose cache holds
    only the pending bits, [PushBits], [PushBits16] and [PushBits32]
    all return, keep the bytes already written, and lengthen the bit
    stream by [bits] bits (none for a negative count) that are the low
    [bits] bits of the value, least significant first. *)
Theorem PushBits_appends_low_bits (v : streamWriter) (val bits : Z) :
  offset_inv v -> cache_inv v ->
  exists v',
    PushBits val bits v = Ok v' /\
    PushBits16 val bits v = Ok v' /\
    PushBits32 val bits v = Ok v' /\
    (exists new, GetBytes v' = GetBytes v ++ new /\ Forall is_byte new) /\
    offset_inv v' /\ cache_inv v' /\
    stream_bits v' = stream_bits v + Z.max 0 bits /\
    stream_value v' =
      stream_value v + 2 ^ stream_bits v * (val mod 2 ^ Z.max 0 bits).
Proof.
  intros Ho Hc. unfold PushBits, PushBits16, PushBits32.
  rewrite push_loop_bit_seq.
  destruct (push_bit_seq_appends (val_bits (Z.to_nat bits) val) v Ho Hc)
    as (new & v' & Hrun & Hd & Hn & Ho' & Hc' & Hbits & Hval).
  rewrite val_bits_length in Hbits. rewrite val_bits_value in Hval.
  replace (Z.of_nat (Z.to_nat bits)) with (Z.max 0 bits) in * by lia.
  destruct (appended_stream_value v v' new _ _ (proj1 Ho) Hd Hbits Hval)
    as [Hsb Hsv].
  exists v'. repeat split; auto; try apply Ho'; try apply Hc'.
  now exists new.
Qed.

(** X10, at seven bits pushed on three pending. *)
Lemma PushBits_appends_low_bits_witness :
  let v := {| data := [0x2A]; bitOffset := 3; bitCache := 5 |} in
  offset_inv v /\ cache_inv v /\
  exists v',
    PushBits 0xFF 7 v = Ok v' /\
    PushBits16 0xFF 7 v = Ok v' /\
    PushBits32 0xFF 7 v = Ok v' /\
    (exists new, GetBytes v' = GetBytes v ++ new /\ Forall is_byte new) /\
    offset_inv v' /\ cache_inv v' /\
    stream_bits v' = stream_bits v + Z.max 0 7 /\
    stream_value v' =
      stream_value v + 2 ^ stream_bits v * (0xFF mod 2 ^ Z.max 0 7).
Proof.
  cbv zeta.
  assert (Ho : offset_inv {| data := [0x2A]; bitOffset := 3; bitCache := 5 |})
    by (unfold offset_inv; cbn; lia).
  assert (Hc : cache_inv {| data := [0x2A]; bitOffset := 3; bitCache := 5 |})
    by (unfold cache_inv; cbn; lia).
  split; [exact Ho|]. split; [exact Hc|].
  exact (PushBits_appends_low_bits _ 0xFF 7 Ho Hc).
Defined.

(** A writer with nothing pending after whole bytes were pushed. *)
Lemma aligned_push (v : streamWriter) (n : nat) (val : Z) :
  bitOffset v = 0 -> bitCache v = 0 -> 0 <= val < 2 ^ (8 * Z.of_nat n) ->
  push_loop (8 * n) val v =
  Ok {| data := data v ++ le_bytes n val; bitOffset := 0; bitCache := 0 |}.
Proof.
  intros Hoff Hcache Hval. rewrite push_loop_bit_seq.
  destruct (push_bit_seq_appends (val_bits (8 * n) val) v)
    as (new & v' & Hrun & Hd & Hn & Ho' & Hc' & Hbits & Hval');
    [unfold offset_inv; lia|unfold cache_inv; rewrite Hoff, Hcache; cbn; lia|].
  rewrite Hrun. f_equal.
  rewrite val_bits_length in Hbits. rewrite val_bits_value in Hval'.
  rewrite Hoff, Hcache in *. unfold offset_inv, cache_inv in *.
  rewrite Nat2Z.inj_mul in *. change (Z.of_nat 8) with 8 in *.
  assert (Hlen : length new = n) by lia.
  assert (Hoff' : bitOffset v' = 0) by lia.
  rewrite Hoff' in Hc'. rewrite Z.pow_0_r in *.
  assert (Hcache' : bitCache v' = 0) by lia.
  rewrite Hcache', Z.mul_0_r, Z.add_0_r, Z.add_0_l, Z.mul_1_l in Hval'.
  rewrite Z.mod_small in Hval' by assumption.
  assert (Hnew : new = le_bytes n val).
  { apply le_value_inj; auto using le_bytes_are_bytes.
    - now rewrite le_bytes_length.
    - rewrite le_value_le_bytes, Z.mod_small by assumption. exact Hval'. }
  destruct v' as [d o c]. cbn [data bitOffset bitCache] in *.
  now rewrite Hd, Hoff', Hcache', Hnew.
Qed.

(** X11: on a writer with no bits pending, pushing a whole byte, word or
    dword bit by bit writes the bytes the byte-level push writes:
    [PushBits(b, 8)] is [PushBytes(b)], [PushBits16(val, 16)] is
    [PushUint16(val)] and [PushBits32(val, 32)] is [PushUint32(val)]. *)
Theorem aligned_bit_push_is_byte_push (v : streamWriter) (val : Z) :
  bitOffset v = 0 -> bitCache v = 0 ->
  (0 <= val < 2 ^ 8 -> PushBits val 8 v = Ok (PushBytes [val] v)) /\
  (0 <= val < 2 ^ 16 -> PushBits16 val 16 v = Ok (PushUint16 val v)) /\
  (0 <= val < 2 ^ 32 -> PushBits32 val 32 v = Ok (PushUint32 val v)).
Proof.
  intros Hoff Hcache. unfold PushBits, PushBits16, PushBits32.
  split; [|split]; intros Hval.
  - change (Z.to_nat 8) with (8 * 1)%nat.
    rewrite aligned_push by (auto; cbn; lia).
    rewrite PushBytes_app, Hoff, Hcache. unfold le_bytes. cbn [seq map].
    change (8 * Z.of_nat 0) with 0. rewrite Z.shiftr_0_r.
    now rewrite uint8_small by (unfold is_byte; lia).
  - change (Z.to_nat 16) with (8 * 2)%nat.
    rewrite aligned_push by (auto; cbn; lia).
    change (PushUint16 val v) with (run_byte_op (OpPushUint16 val) v).
    now rewrite run_byte_op_app, Hoff, Hcache.
  - change (Z.to_nat 32) with (8 * 4)%nat.
    rewrite aligned_push by (auto; cbn; lia).
    change (PushUint32 val v) with (run_byte_op (OpPushUint32 val) v).
    now rewrite run_byte_op_app, Hoff, Hcache.
Qed.

(** X11, at a 16-bit word on a writer holding two bytes. *)
Lemma aligned_bit_push_witness :
  let v := {| data := [1; 2]; bitOffset := 0; bitCache := 0 |} in
  bitOffset v = 0 /\ bitCache v = 0 /\ 0 <= 0xBEEF < 2 ^ 16 /\
  PushBits16 0xBEEF 16 v = Ok (PushUint16 0xBEEF v).
Proof.
  cbv zeta.
  assert (Hv : 0 <= 0xBEEF < 2 ^ 16) by lia.
  split; [reflexivity|]. split; [reflexivity|]. split; [exact Hv|].
  exact (proj1 (proj2 (aligned_bit_push_is_byte_push
                         {| data := [1; 2]; bitOffset := 0; bitCache := 0 |}
                         0xBEEF eq_refl eq_refl)) Hv).
Defined.

(** X12: every writer obtained from [CreateStreamWriter()] by any run of
    methods has its offset in [0, 8) and its cache below [2^offset]; no
    method panics on it, and what it returns is again such a writer. *)
Theorem reachable_writer_is_sound (v : streamWriter) :
  reachable v ->
  offset_inv v /\ cache_inv v /\
  forall o, exists v', run_op o v = Ok v' /\ reachable v'.
Proof.
  intros Hr. destruct (reachable_scratch_inv v Hr) as [Ho Hc].
  split; [exact Ho|]. split; [exact Hc|].
  intros o. destruct (run_op_scratch_inv o v Ho Hc) as (v' & E & _).
  exists v'. split; [exact E|]. now apply (reachable_op o v).
Qed.

(** X12, at the writer after [PushBytes(0x2A)] and [PushBits(5, 3)]. *)
Lemma reachable_writer_witness :
  let v := {| data := [0x2A]; bitOffset := 3; bitCache := 5 |} in
  reachable v /\ offset_inv v /\ cache_inv v /\
  forall o, exists v', run_op o v = Ok v' /\ reachable v'.
Proof.
  cbv zeta.
  assert (Hr : reachable {| data := [0x2A]; bitOffset := 3; bitCache := 5 |}).
  { apply (reachable_op (BitOp (OpPushBits 5 3))
             {| data := [0x2A]; bitOffset := 0; bitCache := 0 |});
      [|reflexivity].
    apply (reachable_op (ByteOp (OpPushBytes [0x2A])) CreateStreamWriter);
      [apply reachable_create|reflexivity]. }
  split; [exact Hr|]. exact (reachable_writer_is_sound _ Hr).
Defined.

Lemma PushBit_appends (b : bool) (v v' : streamWriter) :
  PushBit b v = Ok v' -> exists new, data v' = data v ++ new.
Proof.
  unfold PushBit.
  destruct (if b then set_bit (bitCache v) (bitOffset v) else Ok (bitCache v))
    as [c|p]; [|discriminate].
  destruct (negb (int (bitOffset v + 1) =? bitsPerByte)); intros H;
    injection H as <-.
  - exists []. cbn [data]. now rewrite app_nil_r.
  - now exists [c].
Qed.

Lemma push_loop_appends (n : nat) (val : Z) (v v' : streamWriter) :
  push_loop n val v = Ok v' -> exists new, data v' = data v ++ new.
Proof.
  revert val v. induction n as [|n IH]; intros val v; cbn [push_loop].
  - intros H. injection H as <-. exists []. now rewrite app_nil_r.
  - destruct (PushBit (Z.land val 1 =? 1) v) as [v1|p] eqn:E; [|discriminate].
    intros H. destruct (PushBit_appends _ _ _ E) as (new1 & H1).
    destruct (IH _ _ H) as (new2 & H2).
    exists (new1 ++ new2). now rewrite H2, H1, app_assoc.
Qed.

(** X13: the buffer is append-only: whatever state the writer is in, a
    method that returns leaves every byte [GetBytes()] already showed in
    place and only adds bytes after them. *)
Theorem GetBytes_only_grows (o : op) (v v' : streamWriter) :
  run_op o v = Ok v' -> exists new, GetBytes v' = GetBytes v ++ new.
Proof.
  unfold GetBytes. destruct o as [o|o]; cbn [run_op].
  - intros H. injection H as <-. rewrite run_byte_op_app. cbn [data]. eauto.
  - destruct o; cbn [run_bit_op]; unfold PushBits, PushBits16, PushBits32;
      eauto using PushBit_appends, push_loop_appends.
Qed.

(** X13, at four bits pushed on five pending. *)
Lemma GetBytes_only_grows_witness :
  let v := {| data := [0x2A]; bitOffset := 5; bitCache := 0x15 |} in
  let v' := {| data := [0x2A; 0xF5]; bitOffset := 1; bitCache := 1 |} in
  run_op (BitOp (OpPushBits 0xF 4)) v = Ok v' /\
  exists new, GetBytes v' = GetBytes v ++ new.
Proof.
  cbv zeta.
  assert (H : run_op (BitOp (OpPushBits 0xF 4))
                {| data := [0x2A]; bitOffset := 5; bitCache := 0x15 |} =
              Ok {| data := [0x2A; 0xF5]; bitOffset := 1; bitCache := 1 |})
    by (vm_compute; reflexivity).
  split; [exact H|]. exact (GetBytes_only_grows _ _ _ H).
Defined.

End WriterBits.

(** ** BitStream: the bits in order *)

Module BitOrder.
Import BitReader GoIntFacts LittleEndianFacts BitFacts.
Local Open Scope bits_scope.

Lemma skipn_nth_cons (l : list Z) (n : nat) :
  (n < length l)%nat -> skipn n l = nth n l 0 :: skipn (S n) l.
Proof.
  revert n. induction l as [|x l IH]; intros n Hn; cbn [length] in Hn; [lia|].
  destruct n as [|n]; [reflexivity|].
  cbn [skipn nth]. apply IH. lia.
Qed.

Lemma nth_is_byte (l : list Z) (n : nat) :
  Forall is_byte l -> (n < length l)%nat -> is_byte (nth n l 0).
Proof.
  intros H Hn. rewrite Forall_forall in H. apply H. now apply nth_In.
Qed.

(** Pulling a byte changes neither the bits pending nor their number. *)
Lemma pull_keeps_value (v : BitStream) :
  reg_inv v -> bitCount v <= 15 ->
  dataPosition v < Z.of_nat (length (data v)) ->
  let v1 := pull (nth (Z.to_nat (dataPosition v)) (data v) 0) v in
  reg_inv v1 /\ pending_value v1 = pending_value v /\
  available v1 = available v /\ bitCount v1 = bitCount v + 8.
Proof.
  intros (Hb & Hlen & Hdp & Hbc & Hcur) Hbc15 Hlt. cbv zeta.
  set (b := nth (Z.to_nat (dataPosition v)) (data v) 0).
  assert (Hbyte : is_byte b) by (apply nth_is_byte; [assumption|lia]).
  unfold is_byte, maxInt in *.
  assert (Hpow : 0 < 2 ^ bitCount v) by (apply Z.pow_pos_nonneg; lia).
  assert (Hpow15 : 2 ^ bitCount v <= 2 ^ 15) by (apply Z.pow_le_mono_r; lia).
  change (2 ^ 15) with 32768 in Hpow15.
  assert (Hcur1 : current (pull b v) = current v + b * 2 ^ bitCount v).
  { unfold pull. cbn [current].
    rewrite (int_small b) by (unfold is_int, minInt, maxInt; lia).
    unfold uint. rewrite uint64_small by (unfold is_uint64; lia).
    unfold shlS. destruct (Z.leb_spec 64 (bitCount v)); [lia|].
    rewrite Z.shiftl_mul_pow2 by lia.
    fold int64. fold int.
    rewrite int_small by (unfold is_int, minInt, maxInt; nia).
    rewrite <- Z.shiftl_mul_pow2 by lia.
    rewrite lor_shiftl_add by lia. now rewrite Z.shiftl_mul_pow2 by lia. }
  assert (Hbc1 : bitCount (pull b v) = bitCount v + 8).
  { unfold pull. cbn [bitCount].
    apply int_small. unfold is_int, minInt, maxInt. lia. }
  assert (Hdp1 : dataPosition (pull b v) = dataPosition v + 1).
  { unfold pull. cbn [dataPosition].
    apply int_small. unfold is_int, minInt, maxInt. lia. }
  assert (Hd1 : data (pull b v) = data v) by reflexivity.
  assert (Hp8 : 2 ^ (bitCount v + 8) = 2 ^ bitCount v * 256)
    by (rewrite Z.pow_add_r by lia; reflexivity).
  split; [|split; [|split]].
  - unfold reg_inv. rewrite Hd1, Hdp1, Hbc1, Hcur1, Hp8.
    repeat split; auto; try lia; nia.
  - unfold pending_value. rewrite Hd1, Hdp1, Hbc1, Hcur1, Hp8.
    replace (Z.to_nat (dataPosition v + 1)) with (S (Z.to_nat (dataPosition v))) by lia.
    rewrite (skipn_nth_cons (data v) (Z.to_nat (dataPosition v))) by lia.
    fold b. cbn [le_value]. ring.
  - unfold available. rewrite Hd1, Hdp1, Hbc1. lia.
  - exact Hbc1.
Qed.

(** Within one byte of the resident bits [EnsureBits] delivers. *)
Lemma EnsureBits_within_a_byte (v : BitStream) (n : Z) :
  reg_inv v -> 0 <= n <= 16 -> n <= bitCount v + 8 ->
  (n <= available v ->
   exists v1, EnsureBits n v = Ok (true, v1) /\ reg_inv v1 /\
              pending_value v1 = pending_value v /\
              available v1 = available v /\ n <= bitCount v1) /\
  (available v < n -> EnsureBits n v = Ok (false, v)).
Proof.
  intros Hinv Hn Hnear.
  assert (Hinv' := Hinv). destruct Hinv' as (Hb & Hlen & Hdp & Hbc & Hcur).
  split.
  - intros Hav. destruct (Z.le_gt_cases n (bitCount v)) as [Hres|Hpull].
    + exists v. rewrite EnsureBits_resident by assumption. auto.
    + assert (Hlt : dataPosition v < Z.of_nat (length (data v)))
        by (unfold available in Hav; lia).
      rewrite EnsureBits_pull by lia.
      destruct (pull_keeps_value v Hinv ltac:(lia) Hlt) as (H1 & H2 & H3 & H4).
      eexists. split; [reflexivity|]. repeat split; auto; try apply H1. lia.
  - intros Hav. apply EnsureBits_exhausted; unfold available in Hav; lia.
Qed.

(** Wasting resident bits drops them from the low end. *)
Lemma waste_divides (v : BitStream) (n : Z) :
  reg_inv v -> 0 <= n <= bitCount v ->
  reg_inv (waste n v) /\
  Z.land (current v) (Z.ones n) = pending_value v mod 2 ^ n /\
  pending_value (waste n v) = pending_value v / 2 ^ n /\
  available (waste n v) = available v - n.
Proof.
  intros (Hb & Hlen & Hdp & Hbc & Hcur) Hn.
  set (L := le_value (skipn (Z.to_nat (dataPosition v)) (data v))).
  assert (Hpn : 0 < 2 ^ n) by (apply Z.pow_pos_nonneg; lia).
  assert (Hsplit : 2 ^ bitCount v = 2 ^ (bitCount v - n) * 2 ^ n).
  { rewrite <- Z.pow_add_r by lia. f_equal. lia. }
  assert (Hc : current (waste n v) = current v / 2 ^ n).
  { unfold waste. cbn [current]. unfold uint.
    rewrite uint64_small by (unfold is_uint64; lia).
    unfold shrS. destruct (Z.leb_spec 64 n); [lia|].
    apply Z.shiftr_div_pow2. lia. }
  assert (Hbc' : bitCount (waste n v) = bitCount v - n).
  { unfold waste. cbn [bitCount]. apply int_small.
    unfold is_int, minInt, maxInt. lia. }
  assert (Hpv : pending_value v = current v + (2 ^ (bitCount v - n) * L) * 2 ^ n).
  { unfold pending_value. fold L. rewrite Hsplit. ring. }
  split; [|split; [|split]].
  - unfold reg_inv. rewrite Hc, Hbc'. cbn [data dataPosition waste].
    repeat split; auto; try lia.
    + apply Z.div_pos; lia.
    + apply Z.div_lt_upper_bound; [lia|]. rewrite Z.mul_comm, <- Hsplit. lia.
  - rewrite Z.land_ones by lia. rewrite Hpv. now rewrite Z_mod_plus_full.
  - unfold pending_value at 1. rewrite Hc, Hbc'. cbn [data dataPosition waste].
    fold L. rewrite Hpv, Z_div_plus_full by lia. reflexivity.
  - unfold available. rewrite Hbc'. cbn [data dataPosition waste]. lia.
Qed.

(** X14: on a stream in its invariant, a [ReadBits(n)] that asks for at
    most 8 bits more than are resident returns the next [n] bits of the
    buffer, first bit least significant, and removes them from the bits
    pending, when [n] bits are left; when fewer are left it returns -1
    and leaves the stream as it was. *)
Theorem ReadBits_reads_lsb_first (v : BitStream) (n : Z) :
  reg_inv v -> 0 <= n <= 16 -> n <= bitCount v + 8 ->
  (n <= available v ->
   exists v', ReadBits n v = Ok (pending_value v mod 2 ^ n, v') /\
              reg_inv v' /\
              pending_value v' = pending_value v / 2 ^ n /\
              available v' = available v - n) /\
  (available v < n -> ReadBits n v = Ok (-1, v)).
Proof.
  intros Hinv Hn Hnear. rewrite ReadBits_unfold by assumption.
  destruct (EnsureBits_within_a_byte v n Hinv Hn Hnear) as [Hok Hfail].
  split; intros Hav.
  - destruct (Hok Hav) as (v1 & -> & Hinv1 & Hpv & Hav1 & Hres).
    destruct (waste_divides v1 n Hinv1 ltac:(lia)) as (Hw & Hr & Hpv' & Hav').
    exists (waste n v1). rewrite Hr, Hpv. split; [reflexivity|].
    split; [exact Hw|]. split; [now rewrite Hpv', Hpv|]. now rewrite Hav', Hav1.
  - now rewrite (Hfail Hav).
Qed.

(** X14, at three bits from a fresh stream over two bytes. *)
Lemma ReadBits_reads_lsb_first_witness :
  let v := CreateBitStream [0xA5; 0x3C] in
  reg_inv v /\ 0 <= 3 <= 16 /\ 3 <= bitCount v + 8 /\ 3 <= available v /\
  exists v', ReadBits 3 v = Ok (pending_value v mod 2 ^ 3, v') /\
             reg_inv v' /\
             pending_value v' = pending_value v / 2 ^ 3 /\
             available v' = available v - 3.
Proof.
  cbv zeta.
  assert (Hinv : reg_inv (CreateBitStream [0xA5; 0x3C])).
  { unfold reg_inv, is_byte, maxInt. cbn.
    repeat split; try lia. repeat constructor; lia. }
  assert (Hn : 0 <= 3 <= 16) by lia.
  assert (Hnear : 3 <= bitCount (CreateBitStream [0xA5; 0x3C]) + 8) by (cbn; lia).
  assert (Hav : 3 <= available (CreateBitStream [0xA5; 0x3C]))
    by (vm_compute; discriminate).
  split; [exact Hinv|]. split; [exact Hn|]. split; [exact Hnear|].
  split; [exact Hav|].
  exact (proj1 (ReadBits_reads_lsb_first _ 3 Hinv Hn Hnear) Hav).
Defined.

End BitOrder.

(** ** BitStream: peeking, bytes and fields *)

Module BitFields.
Import BitReader GoIntFacts LittleEndianFacts BitFacts BitOrder.
Local Open Scope bits_scope.

(** X15: a byte that [PeekByte()] has shown is consumed by [WasteBits(8)]
    exactly as [ReadBits(8)] would have consumed it in place of the
    peek: same value, same stream afterwards.  This holds in every
    state of the stream. *)
Theorem PeekByte_WasteBits_is_ReadBits (v v1 : BitStream) (r : Z) :
  PeekByte v = Ok (r, v1) -> r <> -1 ->
  (WasteBits 8 ;;; ret r) v1 = ReadBits 8 v.
Proof.
  intros Hpeek Hr. rewrite PeekByte_unfold in Hpeek.
  rewrite ReadBits_unfold by lia.
  destruct (EnsureBits 8 v) as [[[|] v']|p]; try discriminate.
  - injection Hpeek as <- <-. reflexivity.
  - injection Hpeek as <- _. contradiction.
Qed.

(** X15, at a fresh stream over two bytes. *)
Lemma PeekByte_WasteBits_witness :
  let v := CreateBitStream [0xA5; 0x3C] in
  let v1 := {| data := [0xA5; 0x3C]; dataPosition := 1;
               current := 0xA5; bitCount := 8 |} in
  PeekByte v = Ok (0xA5, v1) /\ 0xA5 <> -1 /\
  (WasteBits 8 ;;; ret 0xA5) v1 = ReadBits 8 v.
Proof.
  cbv zeta.
  assert (Hp : PeekByte (CreateBitStream [0xA5; 0x3C]) =
               Ok (0xA5, {| data := [0xA5; 0x3C]; dataPosition := 1;
                            current := 0xA5; bitCount := 8 |}))
    by (vm_compute; reflexivity).
  assert (Hr : 0xA5 <> -1) by discriminate.
  split; [exact Hp|]. split; [exact Hr|].
  exact (PeekByte_WasteBits_is_ReadBits _ _ _ Hp Hr).
Defined.

(** X16: for a request of at most 8 bits on a register that is not in
    deficit, [EnsureBits] returns true with at least that many bits
    resident and nothing consumed, or returns false with the stream
    untouched, and that only when the request exceeds the resident bits
    and the buffer is exhausted. *)
Theorem EnsureBits_up_to_a_byte (v : BitStream) (n : Z) :
  n <= 8 -> 0 <= bitCount v <= maxInt - 8 ->
  Z.of_nat (length (data v)) <= maxInt ->
  match EnsureBits n v with
  | Ok (true, v') =>
      n <= bitCount v' /\ consumed v' = consumed v /\ data v' = data v
  | Ok (false, v') =>
      v' = v /\ bitCount v < n /\
      Z.of_nat (length (data v)) <= dataPosition v
  | Panic p => p = IndexOutOfRange /\ dataPosition v < 0
  end.
Proof.
  intros Hn Hbc Hlen. unfold maxInt in *.
  destruct (EnsureBits_cases n v)
    as [(H0 & E)|[(H1 & H2 & E)|[(H1 & H2 & E)|(_ & H & E)]]]; rewrite E; auto.
  unfold consumed, pull. cbn [bitCount dataPosition data].
  rewrite !int_small by (unfold is_int, minInt, maxInt; lia).
  repeat split; lia.
Qed.

(** X16, at five bits from a fresh stream over one byte. *)
Lemma EnsureBits_up_to_a_byte_witness :
  let v := CreateBitStream [0xA5] in
  5 <= 8 /\ 0 <= bitCount v <= maxInt - 8 /\
  Z.of_nat (length (data v)) <= maxInt /\
  match EnsureBits 5 v with
  | Ok (true, v') =>
      5 <= bitCount v' /\ consumed v' = consumed v /\ data v' = data v
  | Ok (false, v') =>
      v' = v /\ bitCount v < 5 /\
      Z.of_nat (length (data v)) <= dataPosition v
  | Panic p => p = IndexOutOfRange /\ dataPosition v < 0
  end.
Proof.
  cbv zeta.
  assert (Hn : 5 <= 8) by lia.
  assert (Hbc : 0 <= bitCount (CreateBitStream [0xA5]) <= maxInt - 8)
    by (unfold maxInt; cbn; lia).
  assert (Hlen : Z.of_nat (length (data (CreateBitStream [0xA5]))) <= maxInt)
    by (unfold maxInt; cbn; lia).
  split; [exact Hn|]. split; [exact Hbc|]. split; [exact Hlen|].
  exact (EnsureBits_up_to_a_byte (CreateBitStream [0xA5]) 5 Hn Hbc Hlen).
Defined.

(** X17: on a register that is not in deficit, a byte that [PeekByte()]
    shows stays: a second [PeekByte()] shows the same byte and changes
    nothing, and the [ReadBits(8)] after it returns that byte and is
    the only one of the three calls that consumes, 8 bits. *)
Theorem PeekByte_is_stable (v v1 : BitStream) (r : Z) :
  Z.of_nat (length (data v)) <= maxInt ->
  0 <= bitCount v <= maxInt - 8 ->
  PeekByte v = Ok (r, v1) -> r <> -1 ->
  PeekByte v1 = Ok (r, v1) /\
  exists v2, ReadBits 8 v1 = Ok (r, v2) /\
             consumed v1 = consumed v /\ consumed v2 = consumed v + 8.
Proof.
  intros Hlen Hbc Hpeek Hr.
  split; [|apply (PeekByte_then_ReadBits v v1 r); auto; lia].
  rewrite PeekByte_unfold in Hpeek |- *.
  destruct (EnsureBits 8 v) as [[[|] v']|p] eqn:E; try discriminate.
  - injection Hpeek as <- <-.
    assert (H8 := EnsureBits_byte_ensured 8 v v' ltac:(lia) Hbc E).
    now rewrite EnsureBits_resident.
  - injection Hpeek as <- _. contradiction.
Qed.

(** X17, at a stream with four bits resident. *)
Lemma PeekByte_is_stable_witness :
  let v := {| data := [0xA5; 0x3C]; dataPosition := 1;
              current := 0xA; bitCount := 4 |} in
  let v1 := {| data := [0xA5; 0x3C]; dataPosition := 2;
               current := 0x3CA; bitCount := 12 |} in
  Z.of_nat (length (data v)) <= maxInt /\
  0 <= bitCount v <= maxInt - 8 /\
  PeekByte v = Ok (0xCA, v1) /\ 0xCA <> -1 /\
  PeekByte v1 = Ok (0xCA, v1) /\
  exists v2, ReadBits 8 v1 = Ok (0xCA, v2) /\
             consumed v1 = consumed v /\ consumed v2 = consumed v + 8.
Proof.
  cbv zeta.
  set (v := {| data := [0xA5; 0x3C]; dataPosition := 1;
               current := 0xA; bitCount := 4 |}).
  set (v1 := {| data := [0xA5; 0x3C]; dataPosition := 2;
                current := 0x3CA; bitCount := 12 |}).
  assert (Hlen : Z.of_nat (length (data v)) <= maxInt) by (unfold maxInt; cbn; lia).
  assert (Hbc : 0 <= bitCount v <= maxInt - 8) by (unfold maxInt; cbn; lia).
  assert (Hp : PeekByte v = Ok (0xCA, v1)) by (vm_compute; reflexivity).
  assert (Hr : 0xCA <> -1) by discriminate.
  split; [exact Hlen|]. split; [exact Hbc|]. split; [exact Hp|].
  split; [exact Hr|].
  exact (PeekByte_is_stable v v1 0xCA Hlen Hbc Hp Hr).
Defined.

(** A run of reads, each of at most 8 bits, cuts the pending bits into
    fields in order. *)
Lemma read_fields_split (ns : list Z) (v : BitStream) :
  reg_inv v -> Forall (fun n => 0 <= n <= 8) ns ->
  fold_right Z.add 0 ns <= available v ->
  exists v', read_fields ns v = Ok (split_fields ns (pending_value v), v') /\
             reg_inv v' /\
             available v' = available v - fold_right Z.add 0 ns.
Proof.
  intros Hinv Hns. revert v Hinv.
  induction Hns as [|n ns Hn Hns IH]; intros v Hinv Hsum;
    cbn [read_fields split_fields fold_right] in *.
  - exists v. unfold ret. split; [reflexivity|]. split; [assumption|lia].
  - assert (Hsum' : 0 <= fold_right Z.add 0 ns).
    { clear -Hns. induction Hns as [|x l Hx _ IHl]; cbn [fold_right]; lia. }
    assert (Hbc : 0 <= bitCount v) by apply Hinv.
    destruct (ReadBits_reads_lsb_first v n Hinv ltac:(lia) ltac:(lia)) as [Hok _].
    destruct (Hok ltac:(lia)) as (v1 & Hr & Hinv1 & Hpv & Hav).
    destruct (IH v1 Hinv1 ltac:(lia)) as (v' & Hrs & Hinv' & Hav').
    exists v'. unfold bind at 1. rewrite Hr. unfold bind at 1. rewrite Hrs.
    unfold ret. rewrite Hpv. split; [reflexivity|]. split; [assumption|lia].
Qed.

End BitFields.

(** ** Bit fields: writer to bit reader *)

Module BitFieldRoundTrip.
Import GoIntFacts LittleEndianFacts WriterFacts WriterBits BitFacts BitOrder BitFields.
Import StreamWriter BitReader.

Lemma fields_bits_nonneg (fs : list (Z * Z)) :
  Forall field_ok fs -> 0 <= fields_bits fs.
Proof.
  induction 1 as [|[val bits] fs [Hb _] _ IH]; cbn [fields_bits snd] in *; lia.
Qed.

(** What a run of [PushBits] calls appends. *)
Lemma push_fields_appends (fs : list (Z * Z)) (v : streamWriter) :
  Forall field_ok fs -> offset_inv v -> cache_inv v ->
  exists new v',
    push_fields fs v = Ok v' /\
    StreamWriter.data v' = StreamWriter.data v ++ new /\
    Forall is_byte new /\
    offset_inv v' /\ cache_inv v' /\
    8 * Z.of_nat (length new) + bitOffset v' = bitOffset v + fields_bits fs /\
    le_value new + 2 ^ (8 * Z.of_nat (length new)) * bitCache v' =
      bitCache v + 2 ^ bitOffset v * fields_value fs.
Proof.
  intros Hfs. revert v.
  induction Hfs as [|[val bits] fs [Hb Hv] Hfs IH]; intros v Ho Hc;
    cbn [push_fields fields_bits fields_value fst snd] in *.
  - exists [], v. rewrite app_nil_r. cbn [length le_value].
    change (8 * Z.of_nat 0) with 0. rewrite Z.pow_0_r.
    repeat split; auto; try apply Ho; try apply Hc; lia.
  - unfold PushBits. rewrite push_loop_bit_seq.
    destruct (push_bit_seq_appends (val_bits (Z.to_nat bits) val) v Ho Hc)
      as (new1 & v1 & Hrun1 & Hd1 & Hn1 & Ho1 & Hc1 & Hbits1 & Hval1).
    rewrite val_bits_length, Z2Nat.id in Hbits1 by lia.
    rewrite val_bits_value, Z2Nat.id, Z.mod_small in Hval1 by lia.
    rewrite Hrun1. cbn [and_then].
    destruct (IH v1 Ho1 Hc1)
      as (new2 & v2 & Hrun2 & Hd2 & Hn2 & Ho2 & Hc2 & Hbits2 & Hval2).
    exists (new1 ++ new2), v2.
    split; [exact Hrun2|].
    split; [rewrite Hd2, Hd1, <- app_assoc; reflexivity|].
    split; [apply Forall_app; auto|].
    split; [exact Ho2|]. split; [exact Hc2|].
    rewrite length_app, Nat2Z.inj_add, le_value_app.
    split; [lia|].
    assert (Hfb := fields_bits_nonneg fs Hfs).
    unfold offset_inv in *.
    rewrite Z.mul_add_distr_l, Z.pow_add_r by lia.
    rewrite <- Z.mul_assoc, <- Z.add_assoc, <- Z.mul_add_distr_l, Hval2.
    rewrite Z.mul_add_distr_l, Z.add_assoc, Hval1.
    rewrite !Z.mul_assoc, <- Z.pow_add_r by lia.
    rewrite Hbits1, Z.pow_add_r by lia. ring.
Qed.

Lemma split_fields_value (fs : list (Z * Z)) :
  Forall field_ok fs ->
  split_fields (map snd fs) (fields_value fs) = map fst fs.
Proof.
  induction 1 as [|[val bits] fs [Hb Hv] _ IH];
    cbn [map split_fields fields_value fst snd] in *; [reflexivity|].
  assert (Hp : 0 < 2 ^ bits) by (apply Z.pow_pos_nonneg; lia).
  rewrite (Z.mul_comm (2 ^ bits)), Z_mod_plus_full, Z_div_plus_full by lia.
  rewrite Z.mod_small, Z.div_small, Z.add_0_l by lia. now rewrite IH.
Qed.

Lemma fields_bits_sum (fs : list (Z * Z)) :
  fold_right Z.add 0 (map snd fs) = fields_bits fs.
Proof.
  induction fs as [|[val bits] fs IH]; cbn [map fold_right fields_bits snd];
    [reflexivity|now rewrite IH].
Qed.

Lemma fresh_stream_inv (bytes : list Z) :
  Forall is_byte bytes -> Z.of_nat (length bytes) <= maxInt ->
  reg_inv (CreateBitStream bytes) /\
  pending_value (CreateBitStream bytes) = le_value bytes /\
  available (CreateBitStream bytes) = 8 * Z.of_nat (length bytes).
Proof.
  intros Hb Hlen. unfold reg_inv, pending_value, available, CreateBitStream.
  cbn [BitReader.data dataPosition current bitCount Z.to_nat skipn].
  rewrite Z.pow_0_r. repeat split; auto; lia.
Qed.

(** X18: any run of fields, each of at most 8 bits with a value that fits,
    whose bit counts add up to whole bytes, pushed with [PushBits] into
    a fresh writer, leaves nothing pending, and [ReadBits] with the same
    counts over [GetBytes()] returns the values in the order they were
    pushed. *)
Theorem bit_fields_roundtrip (fs : list (Z * Z)) :
  Forall field_ok fs ->
  fields_bits fs mod 8 = 0 -> fields_bits fs <= maxInt ->
  exists w s,
    push_fields fs CreateStreamWriter = Ok w /\
    bitOffset w = 0 /\ bitCache w = 0 /\
    8 * Z.of_nat (length (GetBytes w)) = fields_bits fs /\
    read_fields (map snd fs) (CreateBitStream (GetBytes w)) =
    Ok (map fst fs, s).
Proof.
  intros Hfs Hmod Hmax.
  destruct (push_fields_appends fs CreateStreamWriter Hfs)
    as (new & w & Hrun & Hd & Hn & Ho & Hc & Hbits & Hval);
    [unfold offset_inv; cbn; lia|unfold cache_inv; cbn; lia|].
  cbn [CreateStreamWriter StreamWriter.data bitOffset bitCache app] in *.
  unfold offset_inv, cache_inv in *.
  assert (Hoff : bitOffset w = 0).
  { assert (H : bitOffset w mod 8 = 0).
    { replace (bitOffset w) with (fields_bits fs + (- Z.of_nat (length new)) * 8)
        by lia.
      now rewrite Z_mod_plus_full. }
    rewrite Z.mod_small in H by lia. exact H. }
  rewrite Hoff in *. rewrite Z.pow_0_r in *.
  assert (Hcache : bitCache w = 0) by lia.
  rewrite Hcache in *.
  destruct (fresh_stream_inv new Hn) as (Hinv & Hpv & Hav);
    [unfold maxInt in *; lia|].
  destruct (read_fields_split (map snd fs) (CreateBitStream new) Hinv)
    as (s & Hread & _).
  { apply Forall_map. eapply Forall_impl; [|exact Hfs].
    intros [val bits] [Hb _]. exact Hb. }
  { rewrite fields_bits_sum, Hav. lia. }
  exists w, s. unfold GetBytes. rewrite Hd.
  split; [exact Hrun|]. split; [exact Hoff|]. split; [exact Hcache|].
  split; [lia|].
  rewrite Hread, Hpv. f_equal. f_equal.
  replace (le_value new) with (fields_value fs) by lia.
  now apply split_fields_value.
Qed.

(** X18, at five fields of 3, 1, 4, 7 and 1 bits. *)
Lemma bit_fields_roundtrip_witness :
  let fs := [(5, 3); (0, 1); (9, 4); (0x7F, 7); (1, 1)] in
  Forall field_ok fs /\
  fields_bits fs mod 8 = 0 /\ fields_bits fs <= maxInt /\
  exists w s,
    push_fields fs CreateStreamWriter = Ok w /\
    bitOffset w = 0 /\ bitCache w = 0 /\
    8 * Z.of_nat (length (GetBytes w)) = fields_bits fs /\
    read_fields (map snd fs) (CreateBitStream (GetBytes w)) =
    Ok (map fst fs, s).
Proof.
  cbv zeta.
  assert (Hfs : Forall field_ok [(5, 3); (0, 1); (9, 4); (0x7F, 7); (1, 1)]).
  { repeat constructor; cbn; lia. }
  assert (Hmod : fields_bits [(5, 3); (0, 1); (9, 4); (0x7F, 7); (1, 1)] mod 8 = 0)
    by reflexivity.
  assert (Hmax : fields_bits [(5, 3); (0, 1); (9, 4); (0x7F, 7); (1, 1)] <= maxInt)
    by (vm_compute; discriminate).
  split; [exact Hfs|]. split; [exact Hmod|]. split; [exact Hmax|].
  exact (bit_fields_roundtrip _ Hfs Hmod Hmax).
Defined.

Lemma split_bytes (l : list Z) (k : nat) :
  Forall is_byte l -> (k <= length l)%nat ->
  split_fields (repeat 8 k) (le_value l) = firstn k l.
Proof.
  intros Hl. revert k. induction Hl as [|b l Hb _ IH]; intros k Hk;
    cbn [length] in Hk.
  - assert (k = 0%nat) by lia. subst k. reflexivity.
  - destruct k as [|k]; [reflexivity|].
    cbn [repeat split_fields le_value firstn]. change (2 ^ 8) with 256.
    unfold is_byte in Hb.
    rewrite (Z.mul_comm 256), Z_mod_plus_full, Z_div_plus_full by lia.
    rewrite Z.mod_small, Z.div_small, Z.add_0_l by lia.
    rewrite IH by lia. reflexivity.
Qed.

(** X19: on a stream with no bits resident, [k] calls of [ReadBits(8)]
    return the next [k] bytes of the buffer, in order. *)
Theorem ReadBits_8_reads_bytes (v : BitStream) (k : nat) :
  reg_inv v -> bitCount v = 0 ->
  Z.of_nat k <= Z.of_nat (length (BitReader.data v)) - dataPosition v ->
  exists v',
    read_fields (repeat 8 k) v =
    Ok (firstn k (skipn (Z.to_nat (dataPosition v)) (BitReader.data v)), v') /\
    reg_inv v' /\ available v' = available v - 8 * Z.of_nat k.
Proof.
  intros Hinv Hbc Hk.
  assert (Hsum : fold_right Z.add 0 (repeat 8 k) = 8 * Z.of_nat k).
  { clear. induction k as [|k IH]; cbn [repeat fold_right]; lia. }
  destruct (read_fields_split (repeat 8 k) v Hinv) as (v' & Hread & Hinv' & Hav).
  { apply Forall_forall. intros x Hx. apply repeat_spec in Hx. lia. }
  { rewrite Hsum. unfold available. lia. }
  exists v'. rewrite Hread, Hsum in *. split; [|auto].
  f_equal. f_equal.
  destruct Hinv as (Hb & Hlen & Hdp & _ & Hcur).
  unfold pending_value. rewrite Hbc in *. rewrite Z.pow_0_r in *.
  replace (current v) with 0 by lia. rewrite Z.add_0_l, Z.mul_1_l.
  apply split_bytes.
  - clear -Hb. revert Hb. generalize (Z.to_nat (dataPosition v)) as n.
    generalize (BitReader.data v) as l.
    induction l as [|x l IH]; intros [|n] H; cbn [skipn]; auto.
    apply IH. now inversion H.
  - rewrite length_skipn. lia.
Qed.

(** X19, at two bytes of a fresh stream over three. *)
Lemma ReadBits_8_reads_bytes_witness :
  let v := CreateBitStream [0xA5; 0x3C; 0x7E] in
  reg_inv v /\ bitCount v = 0 /\
  Z.of_nat 2 <= Z.of_nat (length (BitReader.data v)) - dataPosition v /\
  exists v',
    read_fields (repeat 8 2) v =
    Ok (firstn 2 (skipn (Z.to_nat (dataPosition v)) (BitReader.data v)), v') /\
    reg_inv v' /\ available v' = available v - 8 * Z.of_nat 2.
Proof.
  cbv zeta.
  assert (Hinv : reg_inv (CreateBitStream [0xA5; 0x3C; 0x7E])).
  { unfold reg_inv, is_byte, maxInt. cbn.
    repeat split; try lia. repeat constructor; lia. }
  assert (Hk : Z.of_nat 2 <=
               Z.of_nat (length (BitReader.data (CreateBitStream [0xA5; 0x3C; 0x7E])))
               - dataPosition (CreateBitStream [0xA5; 0x3C; 0x7E]))
    by (cbn; lia).
  split; [exact Hinv|]. split; [reflexivity|]. split; [exact Hk|].
  exact (ReadBits_8_reads_bytes _ 2 Hinv eq_refl Hk).
Defined.

End BitFieldRoundTrip.
